(** * Opt<T>: an optional value kept in raw storage next to a presence flag

    A shallow embedding of [src/Optional.h].  The class template

    <<
      template<typename T> class Opt {
        union { T value; };
        bool hasValue = false;
      };
    >>

    sequences the life of one [T] by hand: placement-new constructs it in
    the union member, [value.~T()] ends it, and [hasValue] records which
    of the two happened last.  The model keeps the two members apart (a
    storage slot and a flag), so that their agreement is a theorem and not
    a property of the data type.

    Containers live in a store indexed by address; a member function takes
    the address of [this] (and of [other]), so [x = x] and
    [x = std::move(x)] are expressible.  The operations of [T] are
    parameters: each may fail with an exception, and every call is appended
    to a trace. *)

From stdpp Require Import gmap list.

Abbreviation loc := positive (only parsing).

(** ** The contained type *)

(** Result of a [T] constructor: the new object, or the exception raised. *)
Inductive res (E A : Type) : Type :=
| Done (a : A)
| Raised (e : E).
Arguments Done {E A} a.
Arguments Raised {E A} e.

(** What [Opt<T>] asks of [T] (and of a right-hand type [U] accepted by the
    constrained [operator=(U&&)]).  Moving may change the source, and a
    failing assignment may change its target, so both are returned. *)
Record TypeOps (T U E : Type) : Type := mkTypeOps {
  T_copy : T → res E T;                        (* T(const T&)              *)
  T_move : T → T * res E T;                    (* T(T&&): source, object   *)
  T_conv : U → res E T;                        (* T(U&&)                   *)
  T_copy_assign : T → T → T * option E;        (* t = const T&: target     *)
  T_move_assign : T → T → T * T * option E;    (* t = T&&: target, source  *)
  T_conv_assign : T → U → T * option E;        (* t = U&&: target          *)
  T_dtor : T → option E                        (* ~T()                     *)
}.
Arguments T_copy {T U E} _ _.
Arguments T_move {T U E} _ _.
Arguments T_conv {T U E} _ _.
Arguments T_copy_assign {T U E} _ _ _.
Arguments T_move_assign {T U E} _ _ _.
Arguments T_conv_assign {T U E} _ _ _.
Arguments T_dtor {T U E} _ _.

(** ** The container *)

(** [union { T value; }]: raw bytes, or one live [T]. *)
Inductive slot (T : Type) : Type :=
| Raw
| Live (v : T).
Arguments Raw {T}.
Arguments Live {T} v.

Record Opt (T : Type) : Type := mkOpt {
  value : slot T;
  hasValue : bool
}.
Arguments mkOpt {T} value hasValue.
Arguments value {T} _.
Arguments hasValue {T} _.

Definition live {T} (s : slot T) : bool :=
  match s with Live _ => true | Raw => false end.

(** Invariant (I1) on one container: the flag says whether the slot is live. *)
Definition I1 {T} (o : Opt T) : Prop := hasValue o = live (value o).

(** A call of one of [T]'s operations, with the container whose storage it
    acts on. *)
Inductive tcall (T U : Type) : Type :=
| CopyCtor (l : loc) (src : T)
| MoveCtor (l : loc) (src : T)
| ConvCtor (l : loc) (u : U)
| CopyAssign (l : loc) (tgt src : T)
| MoveAssign (l : loc) (tgt src : T)
| ConvAssign (l : loc) (tgt : T) (u : U)
| Dtor (l : loc) (v : T).
Arguments CopyCtor {T U} l src.
Arguments MoveCtor {T U} l src.
Arguments ConvCtor {T U} l u.
Arguments CopyAssign {T U} l tgt src.
Arguments MoveAssign {T U} l tgt src.
Arguments ConvAssign {T U} l tgt u.
Arguments Dtor {T U} l v.

(** Ways a run stops for good. *)
Inductive abort : Type :=
| AssertFailed      (* assert(hasValue) *)
| Terminated        (* an exception left a noexcept function *)
| Undefined.        (* a dead object or a dead T was used *)

Inductive outcome (E A : Type) : Type :=
| Ret (a : A)
| Throw (e : E)
| Abort (k : abort).
Arguments Ret {E A} a.
Arguments Throw {E A} e.
Arguments Abort {E A} k.

Record state (T U : Type) : Type := mkState {
  heap : gmap loc (Opt T);
  trace : list (tcall T U)
}.
Arguments mkState {T U} heap trace.
Arguments heap {T U} _.
Arguments trace {T U} _.

(** Every container of the store satisfies (I1). *)
Definition Inv {T U} (s : state T U) : Prop :=
  ∀ l o, heap s !! l = Some o → I1 o.

Definition M (T U E A : Type) : Type := state T U → state T U * outcome E A.

Section Optional.
Context {T U E : Type}.
Variable ops : TypeOps T U E.

Local Abbreviation M := (M T U E).
Local Abbreviation state := (state T U).
Local Abbreviation tcall := (tcall T U).

Definition ret {A} (a : A) : M A := λ s, (s, Ret a).

Definition bind {A B} (m : M A) (k : A → M B) : M B := λ s,
  match m s with
  | (s', Ret a) => k a s'
  | (s', Throw e) => (s', Throw e)
  | (s', Abort r) => (s', Abort r)
  end.

Definition throw {A} (e : E) : M A := λ s, (s, Throw e).
Definition stop {A} (r : abort) : M A := λ s, (s, Abort r).

Local Notation "x <- m ;;; k" := (bind m (λ x, k))
  (at level 100, m at next level, right associativity, only parsing).
Local Notation "m ;;; k" := (bind m (λ _, k))
  (at level 100, right associativity, only parsing).

(** *** Store access *)

Definition get_obj (l : loc) : M (Opt T) := λ s,
  match heap s !! l with
  | Some o => (s, Ret o)
  | None => (s, Abort Undefined)
  end.

Definition upd (l : loc) (f : Opt T → Opt T) : M unit := λ s,
  match heap s !! l with
  | Some o => (mkState (<[l := f o]> (heap s)) (trace s), Ret ())
  | None => (s, Abort Undefined)
  end.

Definition set_value (l : loc) (v : slot T) : M unit :=
  upd l (λ o, mkOpt v (hasValue o)).

Definition set_hasValue (l : loc) (b : bool) : M unit :=
  upd l (λ o, mkOpt (value o) b).

Definition log (c : tcall) : M unit := λ s,
  (mkState (heap s) (trace s ++ [c]), Ret ()).

(** Use of [value] as a [T]: the slot has to hold one. *)
Definition read_value (l : loc) : M T :=
  o <- get_obj l;;;
  match value o with
  | Live v => ret v
  | Raw => stop Undefined
  end.

Definition raise_opt (r : option E) : M unit :=
  match r with
  | None => ret ()
  | Some e => throw e
  end.

(** *** Calls into [T] on a container's storage *)

(** [new(&value) T(src)] with [src] an lvalue. *)
Definition new_copy (this : loc) (src : T) : M unit :=
  log (CopyCtor this src);;;
  match T_copy ops src with
  | Done v => set_value this (Live v)
  | Raised e => throw e
  end.

(** [new(&value) T(std::move(val))] with [val] outside any container. *)
Definition new_move (this : loc) (src : T) : M unit :=
  log (MoveCtor this src);;;
  match snd (T_move ops src) with
  | Done v => set_value this (Live v)
  | Raised e => throw e
  end.

(** [new(&value) T(std::move(other.value))]: the source is the [T] held
    by [other], which keeps what the move left of it. *)
Definition new_move_from (this other : loc) : M unit :=
  src <- read_value other;;;
  log (MoveCtor this src);;;
  set_value other (Live (fst (T_move ops src)));;;
  match snd (T_move ops src) with
  | Done v => set_value this (Live v)
  | Raised e => throw e
  end.

(** [new(&value) T(std::forward<U>(val))]. *)
Definition new_conv (this : loc) (u : U) : M unit :=
  log (ConvCtor this u);;;
  match T_conv ops u with
  | Done v => set_value this (Live v)
  | Raised e => throw e
  end.

(** [value = other.value]. *)
Definition assign_copy_from (this other : loc) : M unit :=
  tgt <- read_value this;;;
  src <- read_value other;;;
  log (CopyAssign this tgt src);;;
  set_value this (Live (fst (T_copy_assign ops tgt src)));;;
  raise_opt (snd (T_copy_assign ops tgt src)).

(** [value = std::move(other.value)]: target first, then what is left of
    the source (when [this] and [other] are one container the two are
    one object, and the source's account of it is the one kept). *)
Definition assign_move_from (this other : loc) : M unit :=
  tgt <- read_value this;;;
  src <- read_value other;;;
  log (MoveAssign this tgt src);;;
  set_value this (Live (fst (fst (T_move_assign ops tgt src))));;;
  set_value other (Live (snd (fst (T_move_assign ops tgt src))));;;
  raise_opt (snd (T_move_assign ops tgt src)).

(** [value = std::forward<U>(val)]. *)
Definition assign_conv (this : loc) (u : U) : M unit :=
  tgt <- read_value this;;;
  log (ConvAssign this tgt u);;;
  set_value this (Live (fst (T_conv_assign ops tgt u)));;;
  raise_opt (snd (T_conv_assign ops tgt u)).

(** [value.~T()]: the lifetime of the [T] ends when its destructor is
    entered, whether or not the destructor returns normally. *)
Definition destroy_value (this : loc) : M unit :=
  v <- read_value this;;;
  log (Dtor this v);;;
  set_value this Raw;;;
  raise_opt (T_dtor ops v).

(** *** Member functions of [Opt<T>] *)

(** [Opt<T>::Destroy()] *)
Definition Destroy (this : loc) : M unit :=
  o <- get_obj this;;;
  if hasValue o then
    destroy_value this;;;
    set_hasValue this false
  else ret ().

(** A constructor of [Opt<T>]: the members are initialised as the
    member-initialiser list (or the default member initialiser) says, then
    the body runs on the new object.  When the body throws, the object never
    began to exist: its storage is given back and the exception goes on to
    the caller, unless the constructor is [noexcept], in which case the
    program is terminated. *)
Definition constructor (noexcept : bool) (init : Opt T) (body : loc → M unit)
    : M loc := λ s,
  let this := fresh (dom (heap s)) in
  match body this (mkState (<[this := init]> (heap s)) (trace s)) with
  | (s', Ret _) => (s', Ret this)
  | (s', Throw e) =>
      (mkState (delete this (heap s')) (trace s'),
       if noexcept then Abort Terminated else Throw e)
  | (s', Abort r) => (s', Abort r)
  end.

(** [constexpr Opt() {}] with [bool hasValue = false]. *)
Definition Opt_default : M loc :=
  constructor false (mkOpt Raw false) (λ _, ret ()).

(** [Opt(NullOpt) {}] *)
Definition Opt_nullopt : M loc :=
  constructor false (mkOpt Raw false) (λ _, ret ()).

(** [Opt(const Opt& other) : hasValue(other.hasValue)] *)
Definition Opt_copy (other : loc) : M loc :=
  o <- get_obj other;;;
  constructor false (mkOpt Raw (hasValue o)) (λ this,
    me <- get_obj this;;;
    if hasValue me then
      src <- read_value other;;;
      new_copy this src
    else ret ()).

(** [Opt(Opt&& other) noexcept : hasValue(other.hasValue)] *)
Definition Opt_move (other : loc) : M loc :=
  o <- get_obj other;;;
  constructor true (mkOpt Raw (hasValue o)) (λ this,
    me <- get_obj this;;;
    if hasValue me then
      new_move_from this other;;;
      Destroy other
    else ret ()).

(** [Opt(const T& val) : hasValue(true)] *)
Definition Opt_of_lvalue (val : T) : M loc :=
  constructor false (mkOpt Raw true) (λ this, new_copy this val).

(** [Opt(T&& val) : hasValue(true)] *)
Definition Opt_of_rvalue (val : T) : M loc :=
  constructor false (mkOpt Raw true) (λ this, new_move this val).

(** [explicit operator bool() const] *)
Definition has_value (this : loc) : M bool :=
  o <- get_obj this;;;
  ret (hasValue o).

(** The four [operator*] overloads share one body,
    [assert(hasValue); return value;] and differ in the kind of reference
    they hand out.  The result is the [T] the reference is bound to. *)
Definition star_mut (this : loc) : M T :=
  o <- get_obj this;;;
  if hasValue o then read_value this else stop AssertFailed.

Definition star_const (this : loc) : M T :=
  o <- get_obj this;;;
  if hasValue o then read_value this else stop AssertFailed.

Definition star_move (this : loc) : M T :=
  o <- get_obj this;;;
  if hasValue o then read_value this else stop AssertFailed.

Definition star_const_move (this : loc) : M T :=
  o <- get_obj this;;;
  if hasValue o then read_value this else stop AssertFailed.

(** [operator->]: [return &value;], unchecked.  The result is what the
    pointer points at. *)
Definition arrow (this : loc) : M (slot T) :=
  o <- get_obj this;;;
  ret (value o).

(** A caller writing through the [T&] of [operator*() &]: the contained
    [T] is changed where it stands. *)
Definition write_through (this : loc) (f : T → T) : M unit :=
  v <- star_mut this;;;
  set_value this (Live (f v)).

(** [operator=(U&& val)] *)
Definition assign_value (this : loc) (val : U) : M unit :=
  o <- get_obj this;;;
  if hasValue o then
    assign_conv this val
  else
    new_conv this val;;;
    set_hasValue this true.

(** [operator=(const Opt& other)] *)
Definition assign_copy (this other : loc) : M unit :=
  b <- has_value other;;;
  if b then
    o <- get_obj this;;;
    if hasValue o then
      assign_copy_from this other
    else
      src <- read_value other;;;
      new_copy this src;;;
      set_hasValue this true
  else Destroy this.

(** [operator=(Opt&& other)] *)
Definition assign_move (this other : loc) : M unit :=
  b <- has_value other;;;
  if b then
    o <- get_obj this;;;
    (if hasValue o then
       assign_move_from this other
     else
       new_move_from this other;;;
       set_hasValue this true);;;
    Destroy other
  else Destroy this.

(** [operator=(NullOpt)] *)
Definition assign_nullopt (this : loc) : M unit :=
  Destroy this.

(** [operator=(std::initializer_list<std::nullptr_t>)], chosen for [o = {}] *)
Definition assign_braces (this : loc) : M unit :=
  Destroy this.

(** [~Opt()]: [Destroy()], after which the object is gone.  The
    destructor is declared without an exception specification, so it is
    [noexcept]: an exception of [~T()] that leaves [Destroy()] terminates
    the program. *)
Definition Opt_dtor (this : loc) : M unit := λ s,
  match Destroy this s with
  | (s', Ret _) => (mkState (delete this (heap s')) (trace s'), Ret ())
  | (s', Throw e) => (s', Abort Terminated)
  | (s', Abort r) => (s', Abort r)
  end.

(** *** Sequences of operations *)

Inductive op : Type :=
| OpDefault
| OpNullOpt
| OpCopy (other : loc)
| OpMove (other : loc)
| OpOfLvalue (val : T)
| OpOfRvalue (val : T)
| OpBool (this : loc)
| OpStarMut (this : loc)
| OpStarConst (this : loc)
| OpStarMove (this : loc)
| OpStarConstMove (this : loc)
| OpArrow (this : loc)
| OpWrite (this : loc) (f : T → T)
| OpAssignValue (this : loc) (val : U)
| OpAssignCopy (this other : loc)
| OpAssignMove (this other : loc)
| OpAssignNullOpt (this : loc)
| OpAssignBraces (this : loc)
| OpDtor (this : loc).

(** What an operation hands back to its caller. *)
Inductive retval : Type :=
| RUnit
| RObj (l : loc)
| RBool (b : bool)
| RVal (v : T)
| RPtr (p : slot T).

Definition fmap_ret {A} (f : A → retval) (m : M A) : M retval :=
  a <- m;;; ret (f a).

Definition run_op (o : op) : M retval :=
  match o with
  | OpDefault => fmap_ret RObj Opt_default
  | OpNullOpt => fmap_ret RObj Opt_nullopt
  | OpCopy other => fmap_ret RObj (Opt_copy other)
  | OpMove other => fmap_ret RObj (Opt_move other)
  | OpOfLvalue val => fmap_ret RObj (Opt_of_lvalue val)
  | OpOfRvalue val => fmap_ret RObj (Opt_of_rvalue val)
  | OpBool this => fmap_ret RBool (has_value this)
  | OpStarMut this => fmap_ret RVal (star_mut this)
  | OpStarConst this => fmap_ret RVal (star_const this)
  | OpStarMove this => fmap_ret RVal (star_move this)
  | OpStarConstMove this => fmap_ret RVal (star_const_move this)
  | OpArrow this => fmap_ret RPtr (arrow this)
  | OpWrite this f => fmap_ret (λ _, RUnit) (write_through this f)
  | OpAssignValue this val => fmap_ret (λ _, RUnit) (assign_value this val)
  | OpAssignCopy this other => fmap_ret (λ _, RUnit) (assign_copy this other)
  | OpAssignMove this other => fmap_ret (λ _, RUnit) (assign_move this other)
  | OpAssignNullOpt this => fmap_ret (λ _, RUnit) (assign_nullopt this)
  | OpAssignBraces this => fmap_ret (λ _, RUnit) (assign_braces this)
  | OpDtor this => fmap_ret (λ _, RUnit) (Opt_dtor this)
  end.

(** The state and the outcome after each operation of a sequence.  A caller
    may catch an exception and go on; an abort ends the run. *)
Fixpoint exec (os : list op) (s : state) : list (state * outcome E retval) :=
  match os with
  | [] => []
  | o :: os' =>
      let r := run_op o s in
      r :: match snd r with
           | Abort _ => []
           | _ => exec os' (fst r)
           end
  end.

(** The exception a recorded call of [T] ended with, if any. *)
Definition call_exn (c : tcall) : option E :=
  match c with
  | CopyCtor _ src =>
      match T_copy ops src with Raised e => Some e | Done _ => None end
  | MoveCtor _ src =>
      match snd (T_move ops src) with Raised e => Some e | Done _ => None end
  | ConvCtor _ u =>
      match T_conv ops u with Raised e => Some e | Done _ => None end
  | CopyAssign _ tgt src => snd (T_copy_assign ops tgt src)
  | MoveAssign _ tgt src => snd (T_move_assign ops tgt src)
  | ConvAssign _ tgt u => snd (T_conv_assign ops tgt u)
  | Dtor _ v => T_dtor ops v
  end.

Definition call_ok (c : tcall) : Prop := call_exn c = None.

Definition is_dtor (c : tcall) : bool :=
  match c with Dtor _ _ => true | _ => false end.

(** The call is not a destructor call that threw. *)
Definition dtor_ok (c : tcall) : Prop :=
  is_dtor c = true → call_exn c = None.

(** The calls of [T] made between two states of one run. *)
Definition calls_between (s s' : state) : list tcall :=
  drop (length (trace s)) (trace s').

(** The operations that no exception may leave: [Opt(Opt&&) noexcept] and
    [~Opt()]. *)
Definition is_noexcept (o : op) : bool :=
  match o with OpMove _ | OpDtor _ => true | _ => false end.

(** How an operation that made the calls [evs] ended with [r]: a call that
    threw is the last one, every call before it returned, and its exception
    is the operation's own outcome, except in the [noexcept] move
    constructor and destructor, where it ends the program. *)
Definition ended (o : op) (r : outcome E retval) (evs : list tcall) : Prop :=
  match r with
  | Throw e =>
      is_noexcept o = false ∧
      ∃ pre c, evs = pre ++ [c] ∧ Forall call_ok pre ∧ call_exn c = Some e
  | Abort Terminated =>
      is_noexcept o = true ∧
      ∃ pre c e, evs = pre ++ [c] ∧ Forall call_ok pre ∧ call_exn c = Some e
  | _ => Forall call_ok evs
  end.

(** The containers an operation may write to. *)
Definition writes (o : op) : list loc :=
  match o with
  | OpWrite this _ | OpAssignValue this _ | OpAssignCopy this _
  | OpAssignNullOpt this | OpAssignBraces this | OpDtor this => [this]
  | OpAssignMove this other => [this; other]
  | OpMove other => [other]
  | _ => []
  end.

End Optional.

(** ** A concrete contained type

    An integer handle: copying keeps the number, moving takes it and leaves
    0 behind.  Four predicates say for which numbers the copy constructor
    (and the converting one), the move constructor, an assignment or the
    destructor throws; the number itself is what is thrown. *)
Definition handle_ops (fail_copy fail_move fail_assign fail_dtor : Z → bool)
    : TypeOps Z Z Z := {|
  T_copy v := if fail_copy v then Raised v else Done v;
  T_move v := if fail_move v then (v, Raised v) else (0%Z, Done v);
  T_conv u := if fail_copy u then Raised u else Done u;
  T_copy_assign t s := if fail_assign s then (t, Some s) else (s, None);
  T_move_assign t s :=
    if fail_assign s then (t, s, Some s) else (s, 0%Z, None);
  T_conv_assign t u := if fail_assign u then (t, Some u) else (u, None);
  T_dtor v := if fail_dtor v then Some v else None
|}.

Definition never : Z → bool := λ _, false.

(** A handle of which nothing ever throws. *)
Definition int_ops : TypeOps Z Z Z := handle_ops never never never never.

(** A handle whose copy constructor throws on 7. *)
Definition copy_throws : TypeOps Z Z Z :=
  handle_ops (Z.eqb 7) never never never.

(** A handle whose move constructor throws on 7. *)
Definition move_throws : TypeOps Z Z Z :=
  handle_ops never (Z.eqb 7) never never.

(** A handle whose destructor throws on 7. *)
Definition dtor_throws : TypeOps Z Z Z :=
  handle_ops never never never (Z.eqb 7).

(** The store before any container exists. *)
Definition init {T U} : state T U := mkState ∅ [].

(** ** Stores and sequences used in the concrete runs *)

(** A default-constructed container is assigned a value through
    [operator=(U&&)] and reset by [= {}] and by [= nopt]. *)
Definition test_o1 : list (@op Z Z) :=
  [OpDefault; OpAssignValue 1%positive 10%Z; OpAssignBraces 1%positive;
   OpAssignNullOpt 1%positive].

(** One present container at address 1. *)
Definition one (v : Z) : state Z Z :=
  mkState {[1%positive := mkOpt (Live v) true]} [].

(** An absent container at 1, present ones at 2 and 3. *)
Definition three (v w : Z) : state Z Z :=
  mkState (<[1%positive := mkOpt Raw false]>
             (<[2%positive := mkOpt (Live v) true]>
                {[3%positive := mkOpt (Live w) true]})) [].

(** An operation that resets [this]: [this = nopt] or [this = {}]. *)
Definition is_reset {T U} (this : loc) (o : @op T U) : Prop :=
  o = OpAssignNullOpt this ∨ o = OpAssignBraces this.

(** ** Operands of an operation *)

(** The containers an operation is called on or with. *)
Definition operands {T U} (o : @op T U) : list loc :=
  match o with
  | OpDefault | OpNullOpt | OpOfLvalue _ | OpOfRvalue _ => []
  | OpCopy other | OpMove other => [other]
  | OpBool this | OpStarMut this | OpStarConst this | OpStarMove this
  | OpStarConstMove this | OpArrow this | OpWrite this _
  | OpAssignValue this _ | OpAssignNullOpt this | OpAssignBraces this
  | OpDtor this => [this]
  | OpAssignCopy this other | OpAssignMove this other => [this; other]
  end.

(** The container an operation reads through [operator*], if it does. *)
Definition accessed {T U} (o : @op T U) : option loc :=
  match o with
  | OpStarMut this | OpStarConst this | OpStarMove this
  | OpStarConstMove this | OpWrite this _ => Some this
  | _ => None
  end.


(** ** Counting lives *)

(** How many members of a list pass a test. *)
Fixpoint tally {A} (f : A → bool) (l : list A) : nat :=
  match l with
  | [] => 0
  | x :: l' => (if f x then 1 else 0) + tally f l'
  end.

(** The call is a constructor call of [T] that returned: a [T] began to
    live in the storage of a container. *)
Definition built {T U E} (ops : TypeOps T U E) (c : tcall T U) : bool :=
  match c with
  | CopyCtor _ _ | MoveCtor _ _ | ConvCtor _ _ =>
      match call_exn ops c with None => true | Some _ => false end
  | _ => false
  end.

(** The containers of a store whose storage holds a live [T]. *)
Definition live_cells {T} (h : gmap loc (Opt T)) : nat :=
  size (filter (λ p : loc * Opt T, live (value p.2) = true) h).

(** No live [T] behind a cleared flag.  Weaker than (I1): it still holds
    after a destructor of [T] threw. *)
Definition Tidy {T U} (s : state T U) : Prop :=
  ∀ l o, heap s !! l = Some o → hasValue o = false → value o = Raw.

Definition is_abort {E A} (r : outcome E A) : bool :=
  match r with Abort _ => true | _ => false end.

(** A handle whose move constructor and assignments throw on 7. *)
Definition moves_throw : TypeOps Z Z Z :=
  handle_ops never (Z.eqb 7) (Z.eqb 7) never.

(** A handle whose destructor throws on 0, the number a move leaves
    behind. *)
Definition left_dtor_throws : TypeOps Z Z Z :=
  handle_ops never never never (Z.eqb 0).

(** * Properties *)

(** Unfold the monadic layer of the member functions. *)
Ltac unfold_M :=
  unfold run_op, fmap_ret, write_through, assign_value, assign_copy,
    assign_move, assign_nullopt, assign_braces, Opt_default, Opt_nullopt,
    Opt_copy, Opt_move, Opt_of_lvalue, Opt_of_rvalue, Opt_dtor, constructor,
    has_value, star_mut, star_const, star_move, star_const_move, arrow,
    Destroy, destroy_value, new_copy, new_move, new_move_from, new_conv,
    assign_copy_from, assign_move_from, assign_conv, read_value, raise_opt,
    set_value, set_hasValue, upd, get_obj, log, bind, ret, throw, stop in *.

(** Evaluate a member function on a store whose relevant cells are known. *)
Ltac run_M :=
  unfold_M; cbn -[fresh] in *;
  repeat (first
    [ rewrite lookup_insert_eq
    | rewrite lookup_insert_ne by done
    | rewrite insert_insert_eq
    | match goal with H : _ !! _ = Some _ |- _ => rewrite H end
    | match goal with H : T_dtor _ _ = _ |- _ => rewrite H end
    | match goal with H : T_copy _ _ = _ |- _ => rewrite H end
    | match goal with H : T_move _ _ = _ |- _ => rewrite H end
    | match goal with H : T_conv _ _ = _ |- _ => rewrite H end
    | match goal with H : T_copy_assign _ _ _ = _ |- _ => rewrite H end
    | match goal with H : T_move_assign _ _ _ = _ |- _ => rewrite H end
    | match goal with H : T_conv_assign _ _ _ = _ |- _ => rewrite H end ];
    cbn -[fresh] in *).

Ltac split_Forall :=
  repeat match goal with
  | H : Forall _ (_ ++ _) |- _ => apply Forall_app in H; destruct H
  | H : Forall _ (_ :: _) |- _ => apply Forall_cons in H; destruct H
  | H : Forall _ [] |- _ => clear H
  end.

(** Case analysis over every path of an unfolded member function. *)
Ltac crush :=
  repeat (first
    [ progress simplify_eq/=
    | match goal with
      | H : context [<[_ := _]> _ !! _] |- _ => rewrite lookup_insert in H
      end
    | match goal with
      | H : context [delete _ _ !! _] |- _ => rewrite lookup_delete in H
      end
    | case_decide
    | case_match ]).

Ltac ok_calls :=
  repeat constructor; unfold call_ok, call_exn; cbn;
  repeat match goal with H : _ = _ |- _ => rewrite H end; cbn; done.

Ltac pick_last :=
  (eexists [], _ + eexists [_], _ + eexists [_; _], _ + eexists [_; _; _], _).

(** Two stores built by writes to the same cells are equal when every cell
    reads the same. *)
Ltac heap_eq :=
  apply map_eq; intros ?; rewrite !lookup_insert;
  repeat case_decide; simplify_eq; done.

Ltac state_eq :=
  rewrite <- ?app_assoc;
  apply (f_equal2 pair); [apply (f_equal2 mkState); [heap_eq | done] | done].

Section Facts.
Context {T U E : Type}.
Variable ops : TypeOps T U E.

Local Abbreviation state := (state T U).
Local Abbreviation op := (@op T U).
Local Abbreviation tcall := (tcall T U).
Local Abbreviation retval := (@retval T).

(** ** Every operation at once *)

Lemma fresh_lookup (s : state) (o : Opt T) :
  heap s !! fresh (dom (heap s)) = Some o → False.
Proof.
  intros H. apply (is_fresh (dom (heap s))). apply elem_of_dom. by exists o.
Qed.

Lemma fresh_ne (s : state) (l : loc) (o : Opt T) :
  heap s !! l = Some o → fresh (dom (heap s)) ≠ l.
Proof. intros H <-. by eapply fresh_lookup. Qed.

Ltac use_Inv Hinv :=
  repeat match goal with
  | H : heap _ !! _ = Some ?o |- _ =>
      lazymatch goal with
      | _ : I1 o |- _ => fail
      | _ => pose proof (Hinv _ _ H)
      end
  end.

Ltac finish Hinv :=
  try (exfalso; eapply fresh_lookup; eassumption);
  use_Inv Hinv; unfold I1, dtor_ok, call_exn in *; cbn in *;
  repeat match goal with H : value _ = _ |- _ => rewrite H in * end;
  cbn in *; try done; try congruence;
  try (exfalso;
       match goal with H : true = true → _ |- _ => specialize (H eq_refl) end;
       congruence).

Ltac other_cell :=
  repeat (first
    [ rewrite lookup_insert_ne
        by (first [congruence | eapply fresh_ne; eassumption])
    | rewrite lookup_delete_ne
        by (first [congruence | eapply fresh_ne; eassumption]) ]).

(** The trace only grows, and the calls added tell how the operation ended. *)
Lemma run_op_calls (o : op) (s s' : state) (r : outcome E retval) :
  run_op ops o s = (s', r) →
  ∃ evs, trace s' = trace s ++ evs ∧ ended ops o r evs.
Proof.
  intros Hrun.
  destruct o; unfold_M; cbn -[fresh] in Hrun; crush;
    rewrite <- ?app_assoc; cbn [app];
    (eexists; split; [symmetry; apply app_nil_r || reflexivity |]);
    unfold ended; cbn.
  all: try ok_calls.
  all: solve [ split; [done|]; pick_last;
               try (lazymatch goal with |- ex _ => eexists end);
               (split; [reflexivity|]); (split; [ok_calls|]);
               unfold call_exn; cbn;
               repeat match goal with H : _ = _ |- _ => rewrite H end; done ].
Qed.

(** (I1) survives an operation in which no destructor of [T] threw. *)
Lemma run_op_Inv_calls (o : op) (s s' : state) (r : outcome E retval)
    (evs : list tcall) :
  Inv s →
  run_op ops o s = (s', r) →
  trace s' = trace s ++ evs →
  Forall (dtor_ok ops) evs →
  Inv s'.
Proof.
  intros Hinv Hrun Hevs Hok l x Hl. revert evs Hevs Hok.
  destruct o; unfold_M; cbn -[fresh] in Hrun; crush; intros evs Hevs Hok;
    rewrite <- ?app_assoc in Hevs; try apply app_inv_head in Hevs;
    subst; split_Forall; finish Hinv.
Qed.

(** A container that an operation does not write to is left as it was. *)
Lemma run_op_frame (o : op) (s s' : state) (r : outcome E retval)
    (l : loc) (x : Opt T) :
  run_op ops o s = (s', r) →
  heap s !! l = Some x →
  l ∉ writes o →
  heap s' !! l = Some x.
Proof.
  intros Hrun Hl Hw.
  destruct o; cbn [writes] in Hw; rewrite ?not_elem_of_cons in Hw;
    destruct_and?; unfold_M; cbn -[fresh] in Hrun; crush; other_cell; done.
Qed.

(** ** Resetting *)

Lemma Destroy_present (this : loc) (s : state) (v : T) :
  heap s !! this = Some (mkOpt (Live v) true) →
  T_dtor ops v = None →
  Destroy ops this s =
    (mkState (<[this := mkOpt Raw false]> (heap s)) (trace s ++ [Dtor this v]),
     Ret ()).
Proof. intros Hthis Hdtor. by run_M. Qed.

Lemma Destroy_absent (this : loc) (s : state) (x : slot T) :
  heap s !! this = Some (mkOpt x false) →
  Destroy ops this s = (s, Ret ()).
Proof. intros Hthis. by run_M. Qed.

Lemma reset_absent (this : loc) (s : state) (r : op) :
  heap s !! this = Some (mkOpt Raw false) →
  is_reset this r →
  run_op ops r s = (s, Ret RUnit).
Proof. intros Hthis [-> | ->]; by run_M. Qed.

Lemma resets_absent (this : loc) (s : state) (os : list op) :
  heap s !! this = Some (mkOpt Raw false) →
  Forall (is_reset this) os →
  exec ops os s = map (λ _, (s, Ret RUnit)) os.
Proof.
  intros Hthis Hos. induction Hos as [|r os Hr _ IH]; [done|].
  cbn [exec map]. rewrite (reset_absent this s r Hthis Hr). cbn. by rewrite IH.
Qed.

(** C4 (amended).  Assigning the absent marker or [{}] to a present
    container whose contained value's destructor returns runs that
    destructor once and clears the flag; on an absent container it changes
    nothing and calls no destructor; and however many such assignments
    follow one another, the store and the trace stay as the first one left
    them. *)
Theorem reset_destroys_once (this : loc) (s : state) (o : Opt T)
    (r : op) (os : list op) :
  heap s !! this = Some o →
  I1 o →
  (∀ v, value o = Live v → T_dtor ops v = None) →
  is_reset this r →
  Forall (is_reset this) os →
  (∀ v, value o = Live v →
     let s1 := mkState (<[this := mkOpt Raw false]> (heap s))
                       (trace s ++ [Dtor this v]) in
     exec ops (r :: os) s = map (λ _, (s1, Ret RUnit)) (r :: os)) ∧
  (value o = Raw →
     exec ops (r :: os) s = map (λ _, (s, Ret RUnit)) (r :: os)).
Proof.
  intros Hthis Hinv Hdtor Hr Hos. destruct o as [x b]. unfold I1 in Hinv.
  cbn [value hasValue live] in Hinv, Hdtor |- *. subst b. split.
  - intros v ->. cbn in Hthis. specialize (Hdtor v eq_refl).
    set (s1 := mkState _ _).
    assert (run_op ops r s = (s1, Ret RUnit)) as Hrun.
    { destruct Hr as [-> | ->]; by run_M. }
    cbn [exec map]. rewrite Hrun. cbn. f_equal.
    apply (resets_absent this); [|done]. subst s1. cbn.
    by rewrite lookup_insert_eq.
  - intros ->. cbn in Hthis. by apply (resets_absent this); [|constructor].
Qed.

Lemma calls_between_app (s s' : state) (evs : list tcall) :
  trace s' = trace s ++ evs → calls_between s s' = evs.
Proof. intros H. unfold calls_between. rewrite H. apply drop_app_length. Qed.

Lemma run_op_Inv (o : op) (s s' : state) (r : outcome E retval) :
  Inv s →
  run_op ops o s = (s', r) →
  Forall (dtor_ok ops) (calls_between s s') →
  Inv s'.
Proof.
  intros Hinv Hrun Hok.
  destruct (run_op_calls o s s' r Hrun) as (evs & Hevs & _).
  rewrite (calls_between_app _ _ _ Hevs) in Hok.
  by eapply run_op_Inv_calls.
Qed.

(** Along a run that started in [s0], (I1) holds in every state reached
    before a destructor of [T] threw. *)
Lemma exec_Inv_from (s0 : state) (os : list op) (s : state) (evs : list tcall) :
  trace s = trace s0 ++ evs →
  (Forall (dtor_ok ops) evs → Inv s) →
  Forall (λ p, Forall (dtor_ok ops) (calls_between s0 p.1) → Inv p.1)
         (exec ops os s).
Proof.
  revert s evs. induction os as [|o os IH]; intros s evs Hevs Hinv; [by constructor|].
  cbn [exec]. destruct (run_op ops o s) as [s1 r] eqn:Hrun. cbn [fst snd].
  destruct (run_op_calls o s s1 r Hrun) as (evs1 & Hevs1 & _).
  assert (trace s1 = trace s0 ++ (evs ++ evs1)) as Hall.
  { by rewrite Hevs1, Hevs, app_assoc. }
  assert (Forall (dtor_ok ops) (evs ++ evs1) → Inv s1) as Hinv1.
  { intros [Hok Hok1]%Forall_app. eapply run_op_Inv_calls; eauto. }
  constructor.
  - cbn. by rewrite (calls_between_app _ _ _ Hall).
  - destruct r; [by eapply IH| by eapply IH | constructor].
Qed.

(** C1 (amended).  Along every sequence of operations, started from a
    store in which flag and storage agree, they agree again after each
    operation, as long as no destructor of [T] has thrown on the way. *)
Theorem exec_Inv (os : list op) (s : state) :
  Inv s →
  Forall (λ p, Forall (dtor_ok ops) (calls_between s p.1) → Inv p.1)
         (exec ops os s).
Proof.
  intros Hinv. apply (exec_Inv_from s os s []); [by rewrite app_nil_r | done].
Qed.

(** ** Value assignment *)

(** C2.  [this = val] on an absent container makes one constructor call,
    stores the [T] it built and sets the flag (an exception leaves the
    container absent); on a present container it makes one assignment call
    on the [T] that is there, with no destructor and no constructor call,
    and the flag stays set. *)
Theorem assign_value_cases (this : loc) (s : state) (o : Opt T) (val : U) :
  heap s !! this = Some o →
  I1 o →
  assign_value ops this val s =
    match value o with
    | Raw =>
        match T_conv ops val with
        | Done v =>
            (mkState (<[this := mkOpt (Live v) true]> (heap s))
                     (trace s ++ [ConvCtor this val]), Ret ())
        | Raised e =>
            (mkState (heap s) (trace s ++ [ConvCtor this val]), Throw e)
        end
    | Live w =>
        (mkState (<[this := mkOpt (Live (T_conv_assign ops w val).1) true]>
                    (heap s))
                 (trace s ++ [ConvAssign this w val]),
         match (T_conv_assign ops w val).2 with
         | None => Ret ()
         | Some e => Throw e
         end)
    end.
Proof.
  intros Hthis Hinv. destruct o as [[|w] b]; unfold I1 in Hinv; cbn in Hinv;
    subst b; cbn [value].
  - destruct (T_conv ops val) as [v|e] eqn:Hconv; by run_M.
  - run_M. by destruct (T_conv_assign ops w val) as [? [?|]].
Qed.

(** ** Access *)

(** C8.  On a present container the mutable and the read-only access both
    hand back the stored value and leave the whole store, the presence
    flag included, as it was. *)
Theorem star_reads_value (this : loc) (s : state) (v : T) :
  heap s !! this = Some (mkOpt (Live v) true) →
  star_mut (E:=E) this s = (s, Ret v) ∧
  star_const (E:=E) this s = (s, Ret v) ∧
  has_value (E:=E) this s = (s, Ret true).
Proof. intros Hthis. by run_M. Qed.

(** ** Empty construction *)

(** C9.  The default constructor and the constructor from the absent
    marker build the same absent container, and every sequence of
    operations run after the one gives the results and the states it gives
    after the other. *)
Theorem default_is_nullopt (s : state) (os : list op) :
  exec ops (OpDefault :: os) s = exec ops (OpNullOpt :: os) s ∧
  let this := fresh (dom (heap s)) in
  let s1 := mkState (<[this := mkOpt Raw false]> (heap s)) (trace s) in
  Opt_default (E:=E) s = (s1, Ret this) ∧
  Opt_nullopt (E:=E) s = (s1, Ret this) ∧
  heap s1 !! this = Some (mkOpt Raw false).
Proof.
  split; [reflexivity|]. intros this s1.
  split; [reflexivity|]. split; [reflexivity|].
  subst s1. cbn. by rewrite lookup_insert_eq.
Qed.

(** ** Moving *)

(** C3 (amended).  Moving out of a present container that holds [v], with
    a [T] whose move hands [v] over and whose destructor returns on what
    the move left behind: the move constructor builds a present container
    holding [v] and empties the source; the move assignment to a different
    container leaves that one present with [v] (built anew when it was
    absent, moved into the [T] it held when it was present) and empties the
    source.  The trace shows one move and one destructor call, on the
    source. *)
Theorem move_transfers (other : loc) (s : state) (v : T) :
  heap s !! other = Some (mkOpt (Live v) true) →
  (∀ left : T,
     T_move ops v = (left, Done v) →
     T_dtor ops left = None →
     (let this := fresh (dom (heap s)) in
      this ≠ other ∧
      Opt_move ops other s =
        (mkState (<[other := mkOpt Raw false]>
                    (<[this := mkOpt (Live v) true]> (heap s)))
                 (trace s ++ [MoveCtor this v; Dtor other left]),
         Ret this)) ∧
     (∀ this : loc,
        this ≠ other →
        heap s !! this = Some (mkOpt Raw false) →
        assign_move ops this other s =
          (mkState (<[other := mkOpt Raw false]>
                      (<[this := mkOpt (Live v) true]> (heap s)))
                   (trace s ++ [MoveCtor this v; Dtor other left]),
           Ret ()))) ∧
  (∀ (this : loc) (w left : T),
     this ≠ other →
     heap s !! this = Some (mkOpt (Live w) true) →
     T_move_assign ops w v = (v, left, None) →
     T_dtor ops left = None →
     assign_move ops this other s =
       (mkState (<[other := mkOpt Raw false]>
                   (<[this := mkOpt (Live v) true]> (heap s)))
                (trace s ++ [MoveAssign this w v; Dtor other left]),
        Ret ())).
Proof.
  intros Hother. split; [intros left Hmove Hdtor; split|].
  - pose proof (fresh_ne s other _ Hother) as Hne. split; [done|].
    run_M. state_eq.
  - intros this Hne Hthis. run_M. state_eq.
  - intros this w left Hne Hthis Hassign Hdtor. run_M. state_eq.
Qed.

(** Not covered by C3: a container move-assigned to itself ends empty. *)
Remark self_move_empties (this : loc) (s : state) (v : T) :
  heap s !! this = Some (mkOpt (Live v) true) →
  (T_move_assign ops v v).2 = None →
  T_dtor ops (T_move_assign ops v v).1.2 = None →
  ∃ s', assign_move ops this this s = (s', Ret ()) ∧
        heap s' !! this = Some (mkOpt Raw false).
Proof.
  intros Hthis Hassign Hdtor.
  destruct (T_move_assign ops v v) as [[tgt src] r] eqn:Hm. cbn in *. subst r.
  run_M. eexists. split; [done|]. cbn. by rewrite lookup_insert_eq.
Qed.

(** C10.  Moving out of an absent container: the move constructor builds
    an absent container and touches neither the source nor the trace; the
    move assignment is [Destroy] on the target, leaves the source absent
    and calls no destructor on it. *)
Theorem move_from_absent (other : loc) (s : state) :
  heap s !! other = Some (mkOpt Raw false) →
  (let this := fresh (dom (heap s)) in
   Opt_move ops other s =
     (mkState (<[this := mkOpt Raw false]> (heap s)) (trace s), Ret this) ∧
   this ≠ other) ∧
  (∀ (this : loc) (s' : state) (r : outcome E unit),
     assign_move ops this other s = (s', r) →
     Destroy ops this s = (s', r) ∧
     heap s' !! other = Some (mkOpt Raw false) ∧
     ∀ v, Dtor other v ∉ calls_between s s').
Proof.
  intros Hother. split.
  - split; [by run_M | by eapply fresh_ne].
  - intros this s' r Hrun.
    assert (Destroy ops this s = (s', r)) as Hd.
    { rewrite <- Hrun. unfold assign_move, has_value, get_obj, bind, ret.
      by rewrite Hother. }
    split; [done|]. clear Hrun. unfold calls_between.
    destruct (decide (this = other)) as [->|Hne].
    + rewrite (Destroy_absent other s Raw Hother) in Hd. simplify_eq.
      split; [done|]. intros v. rewrite drop_all.
      apply not_elem_of_nil.
    + unfold_M. cbn in Hd. crush; rewrite ?drop_all, ?drop_app_length;
        (split; [by rewrite ?lookup_insert_ne by done|]); intros v';
        rewrite ?list_elem_of_singleton; try apply not_elem_of_nil;
        congruence.
Qed.

(** ** Failures of [T] *)

Lemma gset_undo_fresh (X : gset loc) (f : loc) :
  f ∉ X → ({[f]} ∪ X) ∖ {[f]} = X.
Proof.
  intros Hf. apply set_eq. intros x.
  rewrite elem_of_difference, elem_of_union, elem_of_singleton. split.
  - by intros [[->|?] ?].
  - intros Hx. split; [by right | by intros ->].
Qed.

Lemma gset_absorb (X : gset loc) (a : loc) : a ∈ X → {[a]} ∪ X = X.
Proof.
  intros Ha. apply set_eq. intros x.
  rewrite elem_of_union, elem_of_singleton. split; [by intros [->|?] | by right].
Qed.

Lemma gset_undo_fresh_2 (X : gset loc) (f o : loc) :
  f ∉ X → o ∈ X → ({[o]} ∪ ({[f]} ∪ X)) ∖ {[f]} = X.
Proof.
  intros Hf Ho. rewrite (union_comm_L {[f]} X), (assoc_L (∪)).
  rewrite (gset_absorb X o Ho), (union_comm_L X {[f]}).
  by apply gset_undo_fresh.
Qed.

Lemma gset_absorb_2 (X : gset loc) (a b : loc) :
  a ∈ X → b ∈ X → {[a]} ∪ ({[b]} ∪ X) = X.
Proof. intros Ha Hb. by rewrite (gset_absorb X b Hb), (gset_absorb X a Ha). Qed.

(** An operation that ends with an exception of a constructor or an
    assignment of [T] neither adds nor removes a container. *)
Lemma run_op_failed_dom (o : op) (s s' : state) (r : outcome E retval)
    (evs : list tcall) :
  run_op ops o s = (s', r) →
  trace s' = trace s ++ evs →
  Forall (dtor_ok ops) evs →
  match r with Throw _ | Abort Terminated => True | _ => False end →
  dom (heap s') = dom (heap s).
Proof.
  intros Hrun Hevs Hok Hr. revert evs Hevs Hok.
  destruct o; unfold_M; cbn -[fresh] in Hrun; crush; intros evs Hevs Hok;
    rewrite <- ?app_assoc in Hevs; try apply app_inv_head in Hevs;
    subst; split_Forall; try done.
  all: try (exfalso; unfold dtor_ok, call_exn in *; cbn in *;
            match goal with H : true = true → _ |- _ => specialize (H eq_refl) end;
            congruence).
  all: repeat match goal with
       | H : heap _ !! _ = Some _ |- _ =>
           pose proof (elem_of_dom_2 _ _ _ H); clear H
       end;
       rewrite ?dom_delete_L, ?dom_insert_L;
       try match goal with
           | |- context [fresh (dom ?h)] => pose proof (is_fresh (dom h))
           end;
       first [ done
             | by apply gset_absorb
             | by apply gset_undo_fresh
             | by apply gset_undo_fresh_2
             | by apply gset_absorb_2 ].
Qed.

(** C5.  When an operation ends because a constructor or an assignment of
    [T] threw, flag and storage agree in every container of the store
    afterwards, and the store holds the containers it held before: the
    container whose construction failed is not among them. *)
Theorem failed_build_keeps_I1 (o : op) (s s' : state)
    (r : outcome E retval) (pre : list tcall) (c : tcall) (e : E) :
  Inv s →
  run_op ops o s = (s', r) →
  calls_between s s' = pre ++ [c] →
  is_dtor c = false →
  call_exn ops c = Some e →
  Inv s' ∧ dom (heap s') = dom (heap s) ∧ (r = Throw e ∨ r = Abort Terminated).
Proof.
  intros Hinv Hrun Hcalls Hc He.
  destruct (run_op_calls o s s' r Hrun) as (evs & Hevs & Hend).
  rewrite (calls_between_app _ _ _ Hevs) in Hcalls. subst evs.
  assert (Forall (call_ok ops) pre ∧ (r = Throw e ∨ r = Abort Terminated))
    as [Hpre Hr].
  { unfold ended in Hend. destruct r as [a|e'|[]].
    - apply Forall_app in Hend as [_ [Hlast _]%Forall_cons].
      unfold call_ok in Hlast. congruence.
    - destruct Hend as (_ & pre' & c' & Heq & Hpre' & He').
      apply app_inj_tail in Heq as [-> ->]. split; [done|]. left. congruence.
    - apply Forall_app in Hend as [_ [Hlast _]%Forall_cons].
      unfold call_ok in Hlast. congruence.
    - destruct Hend as (_ & pre' & c' & e' & Heq & Hpre' & He').
      apply app_inj_tail in Heq as [-> ->]. split; [done|]. by right.
    - apply Forall_app in Hend as [_ [Hlast _]%Forall_cons].
      unfold call_ok in Hlast. congruence. }
  assert (Forall (dtor_ok ops) (pre ++ [c])) as Hok.
  { apply Forall_app. split.
    - eapply Forall_impl; [exact Hpre|]. by intros c' Hc' _.
    - apply Forall_singleton. intros Hd. congruence. }
  split; [by eapply run_op_Inv_calls|]. split; [|done].
  eapply run_op_failed_dom; [exact Hrun | exact Hevs | exact Hok |].
  by destruct Hr as [-> | ->].
Qed.

(** C6 (amended).  An operation ends with an exception only when the last
    call it made into [T] threw that exception; a call into [T] that throws
    is the last call made and its exception is the outcome of the
    operation, unchanged, unless the operation is the [noexcept] move
    constructor or the destructor [~Opt()], which terminate the program
    instead. *)
Theorem exceptions_pass_through (o : op) (s s' : state)
    (r : outcome E retval) :
  run_op ops o s = (s', r) →
  (∀ e, r = Throw e →
     is_noexcept o = false ∧
     ∃ pre c, calls_between s s' = pre ++ [c] ∧ call_exn ops c = Some e) ∧
  (∀ pre c post e,
     calls_between s s' = pre ++ c :: post →
     call_exn ops c = Some e →
     post = [] ∧
     r = if is_noexcept o then Abort Terminated else Throw e).
Proof.
  intros Hrun.
  destruct (run_op_calls o s s' r Hrun) as (evs & Hevs & Hend).
  rewrite (calls_between_app _ _ _ Hevs). split.
  - intros e ->. destruct Hend as (Hm & pre & c & -> & _ & He). eauto.
  - intros pre c post e -> He.
    assert (¬ Forall (call_ok ops) (pre ++ c :: post)) as Hnot.
    { intros [_ [Hc _]%Forall_cons]%Forall_app. unfold call_ok in Hc.
      congruence. }
    assert (∀ pre' c', pre ++ c :: post = pre' ++ [c'] →
              Forall (call_ok ops) pre' → post = [] ∧ c' = c) as Hlast.
    { intros pre' c' Heq Hpre'. destruct post as [|d post _] using rev_ind.
      - apply app_inj_tail in Heq as [_ ->]. done.
      - exfalso. rewrite app_comm_cons, app_assoc in Heq.
        apply app_inj_tail in Heq as [<- _].
        apply Forall_app in Hpre' as [_ [Hc _]%Forall_cons].
        unfold call_ok in Hc. congruence. }
    unfold ended in Hend. destruct r as [a|e'|[]]; try done.
    + destruct Hend as (Hm & pre' & c' & Heq & Hpre' & He').
      destruct (Hlast pre' c' Heq Hpre') as [-> ->]. rewrite Hm.
      split; [done|]. congruence.
    + destruct Hend as (Hm & pre' & c' & e' & Heq & Hpre' & He').
      destruct (Hlast pre' c' Heq Hpre') as [-> ->]. by rewrite Hm.
Qed.

(** ** Copying *)

(** A container that no operation of a sequence writes to stays as it was
    after each of them. *)
Lemma exec_frame (os : list op) (s : state) (l : loc) (x : Opt T) :
  heap s !! l = Some x →
  Forall (λ o, l ∉ writes o) os →
  Forall (λ p, heap p.1 !! l = Some x) (exec ops os s).
Proof.
  intros Hl Hos. revert s Hl.
  induction Hos as [|o os Ho _ IH]; intros s Hl; [by constructor|].
  cbn [exec]. destruct (run_op ops o s) as [s1 r] eqn:Hrun. cbn [fst snd].
  pose proof (run_op_frame o s s1 r l x Hrun Hl Ho) as Hl1.
  constructor; [done|]. destruct r; [by apply IH | by apply IH | constructor].
Qed.

(** C7.  Copy-constructing from a present container that holds [v], with a
    [T] whose copy constructor yields [v]: the copy is a new container, both
    are present with [v], and whatever is done afterwards to the one
    (assigning, resetting, writing through its reference, destroying it)
    leaves the other present with [v]. *)
Theorem copy_is_independent (other : loc) (s : state) (v : T) :
  heap s !! other = Some (mkOpt (Live v) true) →
  T_copy ops v = Done v →
  let this := fresh (dom (heap s)) in
  let s1 := mkState (<[this := mkOpt (Live v) true]> (heap s))
                    (trace s ++ [CopyCtor this v]) in
  Opt_copy ops other s = (s1, Ret this) ∧
  this ≠ other ∧
  heap s1 !! this = Some (mkOpt (Live v) true) ∧
  heap s1 !! other = Some (mkOpt (Live v) true) ∧
  ∀ (keep : loc) (os : list op),
    keep = this ∨ keep = other →
    Forall (λ o, keep ∉ writes o) os →
    Forall (λ p, heap p.1 !! keep = Some (mkOpt (Live v) true))
           (exec ops os s1).
Proof.
  intros Hother Hcopy this s1.
  pose proof (fresh_ne s other _ Hother) as Hne. fold this in Hne.
  assert (heap s1 !! this = Some (mkOpt (Live v) true)) as Hthis1.
  { subst s1. cbn. by rewrite lookup_insert_eq. }
  assert (heap s1 !! other = Some (mkOpt (Live v) true)) as Hother1.
  { subst s1. cbn. by rewrite lookup_insert_ne. }
  split; [|split; [done|split; [done|split; [done|]]]].
  - subst this s1. run_M. state_eq.
  - intros keep os [-> | ->] Hos; by apply exec_frame.
Qed.


(** ** Copy assignment *)

(** X1.  [this = other] by copy, in the four presence cases: an absent
    source over an absent target changes nothing; an absent source over a
    present target runs the target's destructor and clears its flag; a
    present source over an absent target copy-constructs and sets the flag
    only when the constructor returned; a present source over a present
    target makes one copy-assignment call in place.  The source is never
    written to. *)
Theorem assign_copy_cases (this other : loc) (s : state) (o p : Opt T) :
  heap s !! this = Some o →
  I1 o →
  heap s !! other = Some p →
  I1 p →
  assign_copy ops this other s =
    match value p, value o with
    | Raw, Raw => (s, Ret ())
    | Raw, Live w =>
        match T_dtor ops w with
        | None =>
            (mkState (<[this := mkOpt Raw false]> (heap s))
                     (trace s ++ [Dtor this w]), Ret ())
        | Some e =>
            (mkState (<[this := mkOpt Raw true]> (heap s))
                     (trace s ++ [Dtor this w]), Throw e)
        end
    | Live v, Raw =>
        match T_copy ops v with
        | Done v' =>
            (mkState (<[this := mkOpt (Live v') true]> (heap s))
                     (trace s ++ [CopyCtor this v]), Ret ())
        | Raised e =>
            (mkState (heap s) (trace s ++ [CopyCtor this v]), Throw e)
        end
    | Live v, Live w =>
        (mkState (<[this := mkOpt (Live (T_copy_assign ops w v).1) true]>
                    (heap s))
                 (trace s ++ [CopyAssign this w v]),
         match (T_copy_assign ops w v).2 with
         | None => Ret ()
         | Some e => Throw e
         end)
    end ∧
  (this ≠ other → heap (assign_copy ops this other s).1 !! other = Some p).
Proof.
  intros Hthis Ho Hother Hp.
  assert (assign_copy ops this other s =
    match value p, value o with
    | Raw, Raw => (s, Ret ())
    | Raw, Live w =>
        match T_dtor ops w with
        | None =>
            (mkState (<[this := mkOpt Raw false]> (heap s))
                     (trace s ++ [Dtor this w]), Ret ())
        | Some e =>
            (mkState (<[this := mkOpt Raw true]> (heap s))
                     (trace s ++ [Dtor this w]), Throw e)
        end
    | Live v, Raw =>
        match T_copy ops v with
        | Done v' =>
            (mkState (<[this := mkOpt (Live v') true]> (heap s))
                     (trace s ++ [CopyCtor this v]), Ret ())
        | Raised e =>
            (mkState (heap s) (trace s ++ [CopyCtor this v]), Throw e)
        end
    | Live v, Live w =>
        (mkState (<[this := mkOpt (Live (T_copy_assign ops w v).1) true]>
                    (heap s))
                 (trace s ++ [CopyAssign this w v]),
         match (T_copy_assign ops w v).2 with
         | None => Ret ()
         | Some e => Throw e
         end)
    end) as Heq.
  { destruct o as [[|w] b], p as [[|v] c]; unfold I1 in Ho, Hp; cbn in Ho, Hp;
      subst b c; cbn [value].
    - by run_M.
    - destruct (T_copy ops v) as [v'|e] eqn:Hcopy; by run_M.
    - destruct (T_dtor ops w) as [e|] eqn:Hdtor; by run_M.
    - destruct (decide (this = other)) as [->|Hne].
      + assert (w = v) as -> by congruence.
        run_M. by destruct (T_copy_assign ops v v) as [? [?|]].
      + run_M. by destruct (T_copy_assign ops w v) as [? [?|]]. }
  split; [exact Heq|]. intros Hne. rewrite Heq.
  destruct (value p), (value o); repeat case_match; cbn;
    by rewrite ?lookup_insert_ne.
Qed.

(** X2.  [x = x] by copy on a present container is one copy-assignment
    call of the contained [T] with itself; the container stays present and
    no destructor or constructor runs, whatever the assignment returns. *)
Theorem self_copy_assign (this : loc) (s : state) (v : T) :
  heap s !! this = Some (mkOpt (Live v) true) →
  assign_copy ops this this s =
    (mkState (<[this := mkOpt (Live (T_copy_assign ops v v).1) true]> (heap s))
             (trace s ++ [CopyAssign this v v]),
     match (T_copy_assign ops v v).2 with
     | None => Ret ()
     | Some e => Throw e
     end).
Proof.
  intros Hthis. run_M. by destruct (T_copy_assign ops v v) as [? [?|]].
Qed.

(** ** Move assignment, the paths beside the transfer *)

(** X3.  [x = std::move(x)] on a present container is one
    move-assignment call of the contained [T] with itself; when that call
    throws, the container stays present and nothing is destroyed; when it
    returns, [Destroy()] runs on the very same container: the destructor
    of the contained [T] is called and, when it returns, the container
    ends absent (when it throws, the flag stays set over storage that
    holds no [T]).  On an absent container nothing happens. *)
Theorem self_move_assign (this : loc) (s : state) (o : Opt T) :
  heap s !! this = Some o →
  I1 o →
  assign_move ops this this s =
    match value o with
    | Raw => (s, Ret ())
    | Live v =>
        let left := (T_move_assign ops v v).1.2 in
        match (T_move_assign ops v v).2 with
        | Some e =>
            (mkState (<[this := mkOpt (Live left) true]> (heap s))
                     (trace s ++ [MoveAssign this v v]), Throw e)
        | None =>
            match T_dtor ops left with
            | None =>
                (mkState (<[this := mkOpt Raw false]> (heap s))
                         (trace s ++ [MoveAssign this v v; Dtor this left]),
                 Ret ())
            | Some e =>
                (mkState (<[this := mkOpt Raw true]> (heap s))
                         (trace s ++ [MoveAssign this v v; Dtor this left]),
                 Throw e)
            end
        end
    end.
Proof.
  intros Hthis Ho. destruct o as [[|v] b]; unfold I1 in Ho; cbn in Ho;
    subst b; cbn [value].
  - by run_M.
  - destruct (T_move_assign ops v v) as [[tgt left] [e|]] eqn:Hm; cbn.
    + by run_M.
    + destruct (T_dtor ops left) as [e|] eqn:Hdtor; run_M; state_eq.
Qed.

(** X4.  When [T]'s move throws inside [this = std::move(other)], the
    exception leaves before [other.Destroy()]: the source stays present
    with what the move left in it, no destructor runs, and the target keeps
    its presence (absent stays absent, present stays present with what the
    failed assignment left in it). *)
Theorem failed_move_assign_keeps_source (this other : loc) (s : state)
    (v : T) (e : E) :
  this ≠ other →
  heap s !! other = Some (mkOpt (Live v) true) →
  (heap s !! this = Some (mkOpt Raw false) →
   (T_move ops v).2 = Raised e →
   assign_move ops this other s =
     (mkState (<[other := mkOpt (Live (T_move ops v).1) true]> (heap s))
              (trace s ++ [MoveCtor this v]), Throw e)) ∧
  (∀ w, heap s !! this = Some (mkOpt (Live w) true) →
        (T_move_assign ops w v).2 = Some e →
        assign_move ops this other s =
          (mkState (<[other := mkOpt (Live (T_move_assign ops w v).1.2) true]>
                      (<[this := mkOpt (Live (T_move_assign ops w v).1.1) true]>
                         (heap s)))
                   (trace s ++ [MoveAssign this w v]), Throw e)).
Proof.
  intros Hne Hother. split.
  - intros Hthis Hmove. destruct (T_move ops v) as [left r] eqn:Hm.
    cbn in *. subst r. by run_M.
  - intros w Hthis Hassign.
    destruct (T_move_assign ops w v) as [[tgt left] r] eqn:Hm. cbn in *.
    subst r. by run_M.
Qed.

(** ** Presence query and access *)

(** X5.  In a container that satisfies (I1) the presence query decides
    every access: when it answers true, the four [operator*] overloads hand
    back the contained value and [operator->] points at it, the rvalue
    overloads included, and nothing in the store changes (an
    ownership-transferring access does not empty the container); when it
    answers false, each [operator*] fails its assertion and [operator->],
    which does not check, points at raw storage. *)
Theorem presence_guards_access (this : loc) (s : state) (o : Opt T) :
  heap s !! this = Some o →
  I1 o →
  let got := match value o with
             | Live v => (s, Ret v)
             | Raw => (s, Abort AssertFailed)
             end in
  has_value (E:=E) this s = (s, Ret (live (value o))) ∧
  arrow (E:=E) this s = (s, Ret (value o)) ∧
  star_mut (E:=E) this s = got ∧
  star_const (E:=E) this s = got ∧
  star_move (E:=E) this s = got ∧
  star_const_move (E:=E) this s = got.
Proof.
  intros Hthis Ho. destruct o as [[|v] b]; unfold I1 in Ho; cbn in Ho; subst b.
  all: repeat split; by run_M.
Qed.

(** ** Construction from a value, copy construction, destruction *)

Lemma undo_alloc (h : gmap loc (Opt T)) (o : Opt T) :
  delete (fresh (dom h)) (<[fresh (dom h) := o]> h) = h.
Proof.
  apply delete_insert_id, not_elem_of_dom, is_fresh.
Qed.

(** X6.  [Opt(const T&)] and [Opt(T&&)] make one constructor call of [T],
    into a container at an address no container had.  When the call
    returns, the new container is present with the [T] built; when it
    throws, the exception reaches the caller and the store holds exactly the
    containers it held before. *)
Theorem value_constructors (val : T) (s : state) :
  let this := fresh (dom (heap s)) in
  heap s !! this = None ∧
  Opt_of_lvalue ops val s =
    match T_copy ops val with
    | Done v =>
        (mkState (<[this := mkOpt (Live v) true]> (heap s))
                 (trace s ++ [CopyCtor this val]), Ret this)
    | Raised e => (mkState (heap s) (trace s ++ [CopyCtor this val]), Throw e)
    end ∧
  Opt_of_rvalue ops val s =
    match (T_move ops val).2 with
    | Done v =>
        (mkState (<[this := mkOpt (Live v) true]> (heap s))
                 (trace s ++ [MoveCtor this val]), Ret this)
    | Raised e => (mkState (heap s) (trace s ++ [MoveCtor this val]), Throw e)
    end.
Proof.
  intros this. split; [apply not_elem_of_dom, is_fresh|]. subst this. split.
  - destruct (T_copy ops val) as [v|e] eqn:Hcopy; run_M;
      [done | by rewrite undo_alloc].
  - destruct (T_move ops val) as [left [v|e]] eqn:Hmove; run_M;
      [done | by rewrite undo_alloc].
Qed.

(** X7.  Round trip: a value put into a container, by either value
    constructor or by value assignment to an absent or a present container,
    is what [operator*] reads back, as long as [T]'s own constructor or
    assignment returned it. *)
Theorem store_then_read (s : state) (v : T) :
  (∀ val, T_copy ops val = Done v →
     let r := Opt_of_lvalue ops val s in
     r.2 = Ret (fresh (dom (heap s))) ∧
     star_const (E:=E) (fresh (dom (heap s))) r.1 = (r.1, Ret v)) ∧
  (∀ val, (T_move ops val).2 = Done v →
     let r := Opt_of_rvalue ops val s in
     r.2 = Ret (fresh (dom (heap s))) ∧
     star_const (E:=E) (fresh (dom (heap s))) r.1 = (r.1, Ret v)) ∧
  (∀ this o val,
     heap s !! this = Some o →
     I1 o →
     match value o with
     | Raw => T_conv ops val = Done v
     | Live w => T_conv_assign ops w val = (v, None)
     end →
     let r := assign_value ops this val s in
     r.2 = Ret () ∧ star_const (E:=E) this r.1 = (r.1, Ret v)).
Proof.
  split; [|split].
  - intros val Hcopy. by run_M.
  - intros val Hmove. destruct (T_move ops val) as [left r] eqn:Hm.
    cbn in Hmove. subst r. by run_M.
  - intros this [[|w] b] val Hthis Ho Hconv; unfold I1 in Ho; cbn in Ho, Hconv;
      subst b; by run_M.
Qed.

(** X8.  [Opt(const Opt&)] for every source: an absent source gives an
    absent copy and no call of [T]; a present one gives one copy-constructor
    call, and a present copy when it returned; when it threw, the exception
    reaches the caller and no container was added.  The source is not
    written to in any case. *)
Theorem copy_construct_cases (other : loc) (s : state) (p : Opt T) :
  heap s !! other = Some p →
  I1 p →
  let this := fresh (dom (heap s)) in
  Opt_copy ops other s =
    match value p with
    | Raw => (mkState (<[this := mkOpt Raw false]> (heap s)) (trace s), Ret this)
    | Live v =>
        match T_copy ops v with
        | Done v' =>
            (mkState (<[this := mkOpt (Live v') true]> (heap s))
                     (trace s ++ [CopyCtor this v]), Ret this)
        | Raised e =>
            (mkState (heap s) (trace s ++ [CopyCtor this v]), Throw e)
        end
    end ∧
  heap (Opt_copy ops other s).1 !! other = Some p.
Proof.
  intros Hother Hp this.
  pose proof (fresh_ne s other _ Hother) as Hne. fold this in Hne.
  assert (Opt_copy ops other s =
    match value p with
    | Raw => (mkState (<[this := mkOpt Raw false]> (heap s)) (trace s), Ret this)
    | Live v =>
        match T_copy ops v with
        | Done v' =>
            (mkState (<[this := mkOpt (Live v') true]> (heap s))
                     (trace s ++ [CopyCtor this v]), Ret this)
        | Raised e =>
            (mkState (heap s) (trace s ++ [CopyCtor this v]), Throw e)
        end
    end) as Heq.
  { subst this. destruct p as [[|v] b]; unfold I1 in Hp; cbn in Hp; subst b;
      cbn [value].
    - by run_M.
    - destruct (T_copy ops v) as [v'|e] eqn:Hcopy; run_M;
        [done | by rewrite undo_alloc]. }
  split; [exact Heq|]. rewrite Heq.
  destruct (value p); repeat case_match; cbn; by rewrite ?lookup_insert_ne.
Qed.

(** X9.  [~Opt()] on a present container runs the destructor of the
    contained [T] once, on an absent one it calls nothing.  When it
    returns, the container is gone from the store and every other
    container is as it was.  When [~T()] throws, the exception cannot leave
    the [noexcept] destructor: the program is terminated. *)
Theorem destructor_cases (this : loc) (s : state) (o : Opt T) :
  heap s !! this = Some o →
  I1 o →
  Opt_dtor ops this s =
    match value o with
    | Raw => (mkState (delete this (heap s)) (trace s), Ret ())
    | Live v =>
        match T_dtor ops v with
        | None =>
            (mkState (delete this (heap s)) (trace s ++ [Dtor this v]),
             Ret ())
        | Some e =>
            (mkState (<[this := mkOpt Raw true]> (heap s))
                     (trace s ++ [Dtor this v]), Abort Terminated)
        end
    end ∧
  ((Opt_dtor ops this s).2 = Ret () →
   heap (Opt_dtor ops this s).1 !! this = None ∧
   ∀ l, l ≠ this → heap (Opt_dtor ops this s).1 !! l = heap s !! l).
Proof.
  intros Hthis Ho.
  assert (Opt_dtor ops this s =
    match value o with
    | Raw => (mkState (delete this (heap s)) (trace s), Ret ())
    | Live v =>
        match T_dtor ops v with
        | None =>
            (mkState (delete this (heap s)) (trace s ++ [Dtor this v]),
             Ret ())
        | Some e =>
            (mkState (<[this := mkOpt Raw true]> (heap s))
                     (trace s ++ [Dtor this v]), Abort Terminated)
        end
    end) as Heq.
  { destruct o as [[|v] b]; unfold I1 in Ho; cbn in Ho; subst b; cbn [value].
    - by run_M.
    - destruct (T_dtor ops v) as [e|] eqn:Hdtor; run_M;
        by rewrite ?delete_insert_eq. }
  split; [exact Heq|]. rewrite Heq.
  destruct (value o) as [|v]; [|destruct (T_dtor ops v)]; cbn; try done;
    intros _; (split; [by rewrite lookup_delete_eq|]);
    intros l Hl; by rewrite lookup_delete_ne.
Qed.

(** ** What no operation does *)

Lemma run_op_safe (o : op) (s s' : state) (r : outcome E retval) :
  Inv s →
  Forall (λ l, is_Some (heap s !! l)) (operands o) →
  run_op ops o s = (s', r) →
  match r with
  | Abort Undefined => False
  | Abort AssertFailed =>
      ∃ this, accessed o = Some this ∧
              heap s !! this = Some (mkOpt Raw false) ∧ s' = s
  | Abort Terminated => is_noexcept o = true
  | _ => True
  end.
Proof.
  intros Hinv Hex Hrun.
  destruct o; cbn [operands] in Hex; split_Forall;
    repeat match goal with H : is_Some _ |- _ => destruct H end;
    unfold_M; cbn -[fresh] in Hrun; crush; try done;
    try (eexists; split; [reflexivity|]; split; [|reflexivity]);
    try match goal with
        | H : heap ?h !! ?l = Some ?a |- heap ?h !! ?l = Some _ =>
            rewrite H; pose proof (Hinv _ _ H) as HI; unfold I1 in HI;
            destruct a as [[|?] []]; cbn in *; congruence
        end;
    finish Hinv.
Qed.

(** X10.  From a store in which every container satisfies (I1), an
    operation on existing containers never uses storage that holds no live
    [T] as a [T]: it never reads, assigns or destroys a dead value.  The
    only aborts are the assertion of [operator*] on an absent container,
    which leaves the store untouched, and the termination of the two
    [noexcept] functions, the move constructor and the destructor
    [~Opt()]. *)
Theorem never_uses_dead_storage (o : op) (s s' : state)
    (r : outcome E retval) :
  Inv s →
  Forall (λ l, is_Some (heap s !! l)) (operands o) →
  run_op ops o s = (s', r) →
  r ≠ Abort Undefined ∧
  (r = Abort AssertFailed →
     ∃ this, accessed o = Some this ∧
             heap s !! this = Some (mkOpt Raw false) ∧ s' = s) ∧
  (r = Abort Terminated → is_noexcept o = true).
Proof.
  intros Hinv Hex Hrun. pose proof (run_op_safe o s s' r Hinv Hex Hrun) as H.
  split; [by intros ->|]. split; by intros ->.
Qed.







(** ** Every life ends once *)

Lemma live_cells_delete (h : gmap loc (Opt T)) (l : loc) :
  live_cells (delete l h) +
    match h !! l with Some o => Nat.b2n (live (value o)) | None => 0 end
  = live_cells h.
Proof.
  unfold live_cells. rewrite map_filter_delete.
  destruct (h !! l) as [o|] eqn:Hl.
  - destruct (live (value o)) eqn:Hlive; cbn.
    + assert (filter (λ p : loc * Opt T, live (value p.2) = true) h !! l
              = Some o) as Hf by (by apply map_lookup_filter_Some).
      pose proof (map_size_delete_Some l _ (ex_intro _ o Hf)) as Hsz.
      assert (size (filter (λ p : loc * Opt T, live (value p.2) = true) h)
              ≠ 0) as Hpos by (apply map_size_ne_0_lookup_2 with l; eauto).
      lia.
    + rewrite delete_id; [lia|]. apply map_lookup_filter_None. right.
      intros o' Ho'. cbn. congruence.
  - cbn. rewrite delete_id; [lia|]. apply map_lookup_filter_None. by left.
Qed.

Lemma live_cells_insert (h : gmap loc (Opt T)) (l : loc) (o' : Opt T) :
  live_cells (<[l := o']> h) +
    match h !! l with Some o => Nat.b2n (live (value o)) | None => 0 end
  = live_cells h + Nat.b2n (live (value o')).
Proof.
  pose proof (live_cells_delete h l) as Hdel.
  pose proof (live_cells_delete (<[l := o']> h) l) as Hins.
  rewrite lookup_insert_eq, delete_insert_eq in Hins. lia.
Qed.

Lemma fresh_None (s : state) : heap s !! fresh (dom (heap s)) = None.
Proof. apply not_elem_of_dom, is_fresh. Qed.

Lemma self_app_nil {A} (l evs : list A) : l = l ++ evs → evs = [].
Proof.
  intros H. apply (app_inv_head l). by rewrite app_nil_r.
Qed.

Ltac lookup_in H :=
  rewrite ?lookup_insert_eq, ?lookup_delete_eq in H;
  rewrite ?lookup_insert_ne, ?lookup_delete_ne in H by congruence;
  rewrite ?lookup_insert_eq, ?lookup_delete_eq in H;
  rewrite ?lookup_insert_ne, ?lookup_delete_ne in H by congruence;
  rewrite ?lookup_insert_eq, ?lookup_delete_eq in H;
  rewrite ?lookup_insert_ne, ?lookup_delete_ne in H by congruence;
  rewrite ?fresh_None in H;
  repeat match goal with
         | Hl : heap _ !! _ = Some _ |- _ => rewrite Hl in H
         end.

Ltac count_insert M a x :=
  let H := fresh "Hcount" in
  let n := fresh "n" in
  pose proof (live_cells_insert M a x) as H; lookup_in H;
  set (n := live_cells (<[a := x]> M)) in *; clearbody n.

Ltac count_delete M a :=
  let H := fresh "Hcount" in
  let n := fresh "n" in
  pose proof (live_cells_delete M a) as H; lookup_in H;
  set (n := live_cells (delete a M)) in *; clearbody n.

Ltac count_cells :=
  repeat match goal with
  | |- context [live_cells (<[?a := ?x]> ?M)] => count_insert M a x
  | |- context [live_cells (delete ?a ?M)] => count_delete M a
  | _ : context [live_cells (<[?a := ?x]> ?M)] |- _ => count_insert M a x
  | _ : context [live_cells (delete ?a ?M)] |- _ => count_delete M a
  end.

Lemma run_op_balance_calls (o : op) (s s' : state) (r : outcome E retval)
    (evs : list tcall) :
  Tidy s →
  run_op ops o s = (s', r) →
  is_abort r = false →
  trace s' = trace s ++ evs →
  live_cells (heap s') + tally is_dtor evs
  = live_cells (heap s) + tally (built ops) evs.
Proof.
  intros Htidy Hrun Hr Hevs. revert evs Hevs.
  destruct o; unfold_M; cbn -[fresh] in Hrun; crush; intros evs Hevs;
    rewrite <- ?app_assoc in Hevs; try apply app_inv_head in Hevs;
    try apply self_app_nil in Hevs;
    subst; cbn [app tally is_dtor built call_exn].
  all: repeat match goal with
       | H : heap _ !! _ = Some ?a |- _ =>
           lazymatch goal with
           | _ : hasValue a = false → value a = Raw |- _ => fail
           | _ => pose proof (Htidy _ _ H)
           end
       end.
  all: try congruence.
  all: repeat match goal with
       | H1 : ?P → _, H : ?P |- _ => specialize (H1 H)
       end.
  all: count_cells.
  all: repeat match goal with H : value _ = _ |- _ => rewrite H in * end;
       repeat match goal with H : T_copy _ _ = _ |- _ => rewrite H in * end;
       repeat match goal with H : T_conv _ _ = _ |- _ => rewrite H in * end;
       repeat match goal with H : _.2 = _ |- _ => rewrite H in * end;
       cbn [live value Nat.b2n] in *; try lia.
Qed.

Lemma run_op_Tidy (o : op) (s s' : state) (r : outcome E retval) :
  Tidy s → run_op ops o s = (s', r) → Tidy s'.
Proof.
  intros Htidy Hrun l x Hl Hflag.
  destruct o; unfold_M; cbn -[fresh] in Hrun; crush;
    try (exfalso; eapply fresh_lookup; eassumption);
    try done; try (by eapply Htidy); congruence.
Qed.

Lemma tally_app {A} (f : A → bool) (l1 l2 : list A) :
  tally f (l1 ++ l2) = tally f l1 + tally f l2.
Proof. induction l1 as [|x l1 IH]; cbn; [done|]. rewrite IH. lia. Qed.

Lemma exec_balance_from (s0 : state) (os : list op) (s : state)
    (evs : list tcall) :
  trace s = trace s0 ++ evs →
  Tidy s →
  live_cells (heap s) + tally is_dtor evs
    = live_cells (heap s0) + tally (built ops) evs →
  Forall (λ p, is_abort p.2 = false →
               live_cells (heap p.1) + tally is_dtor (calls_between s0 p.1)
               = live_cells (heap s0)
                 + tally (built ops) (calls_between s0 p.1))
         (exec ops os s).
Proof.
  revert s evs. induction os as [|o os IH]; intros s evs Hevs Htidy Hbal;
    [by constructor|].
  cbn [exec]. destruct (run_op ops o s) as [s1 r] eqn:Hrun. cbn [fst snd].
  destruct (run_op_calls o s s1 r Hrun) as (evs1 & Hevs1 & _).
  assert (trace s1 = trace s0 ++ (evs ++ evs1)) as Hall.
  { by rewrite Hevs1, Hevs, app_assoc. }
  assert (is_abort r = false →
          live_cells (heap s1) + tally is_dtor (evs ++ evs1)
          = live_cells (heap s0) + tally (built ops) (evs ++ evs1)) as Hbal1.
  { intros Hr.
    pose proof (run_op_balance_calls o s s1 r evs1 Htidy Hrun Hr Hevs1).
    rewrite !tally_app. lia. }
  constructor.
  - cbn. by rewrite (calls_between_app _ _ _ Hall).
  - pose proof (run_op_Tidy o s s1 r Htidy Hrun) as Htidy1.
    destruct r; [by eapply IH; eauto | by eapply IH; eauto | constructor].
Qed.

(** X12.  Every life ends once.  Start from a store with no live [T]
    behind a cleared flag and run any sequence of operations, with any [T]
    (its constructors, assignments and destructor may throw): after each
    operation that did not abort, the number of containers holding a live
    [T] has grown by the constructor calls that returned and shrunk by the
    destructor calls made.  No constructed [T] is dropped without its
    destructor, and none is destroyed twice. *)
Theorem lives_balance (os : list op) (s : state) :
  Tidy s →
  Forall (λ p, is_abort p.2 = false →
               live_cells (heap p.1) + tally is_dtor (calls_between s p.1)
               = live_cells (heap s)
                 + tally (built ops) (calls_between s p.1))
         (exec ops os s).
Proof.
  intros Htidy. apply (exec_balance_from s os s []);
    [by rewrite app_nil_r | done | cbn; lia].
Qed.


(** ** Sequences of two *)

(** X13.  When [T]'s constructor returns and the destructor of the [T] it
    built returns, assigning a value to an absent container and resetting
    it brings the store back to where it was: one constructor call, one
    destructor call on the [T] that was built, and the container is absent
    again. *)
Theorem assign_then_reset (this : loc) (s : state) (val : U) (v : T)
    (reset : op) :
  heap s !! this = Some (mkOpt Raw false) →
  T_conv ops val = Done v →
  T_dtor ops v = None →
  is_reset this reset →
  exec ops [OpAssignValue this val; reset] s =
    [(mkState (<[this := mkOpt (Live v) true]> (heap s))
              (trace s ++ [ConvCtor this val]), Ret RUnit);
     (mkState (heap s) (trace s ++ [ConvCtor this val; Dtor this v]),
      Ret RUnit)].
Proof.
  intros Hthis Hconv Hdtor Hreset.
  assert (run_op ops (OpAssignValue this val) s =
            (mkState (<[this := mkOpt (Live v) true]> (heap s))
                     (trace s ++ [ConvCtor this val]), Ret RUnit)) as H1.
  { by run_M. }
  assert (run_op ops reset
            (mkState (<[this := mkOpt (Live v) true]> (heap s))
                     (trace s ++ [ConvCtor this val])) =
          (mkState (heap s) (trace s ++ [ConvCtor this val; Dtor this v]),
           Ret RUnit)) as H2.
  { destruct Hreset as [-> | ->]; run_M; rewrite <- app_assoc;
      by rewrite insert_id. }
  cbn [exec]. rewrite H1. cbn [fst snd]. by rewrite H2.
Qed.

(** X14.  When the destructor of the contained [T] throws during a reset,
    [Destroy()] is left before [hasValue = false]: the exception reaches
    the caller and the container keeps its flag set over storage that
    holds no [T].  Every later reset, access, value assignment or
    destruction of that container uses the dead storage as a [T]. *)
Theorem throwing_dtor_poisons (this : loc) (s : state) (v : T) (e : E)
    (reset : op) :
  heap s !! this = Some (mkOpt (Live v) true) →
  T_dtor ops v = Some e →
  is_reset this reset →
  let s1 := mkState (<[this := mkOpt Raw true]> (heap s))
                    (trace s ++ [Dtor this v]) in
  run_op ops reset s = (s1, Throw e) ∧
  ∀ o, o ∈ [OpAssignNullOpt this; OpAssignBraces this; OpStarMut this;
            OpStarConst this; OpDtor this] ∨
       (∃ val, o = OpAssignValue this val) →
       run_op ops o s1 = (s1, Abort Undefined).
Proof.
  intros Hthis Hdtor Hreset s1.
  assert (heap s1 !! this = Some (mkOpt Raw true)) as Hthis1.
  { subst s1. cbn. by rewrite lookup_insert_eq. }
  split.
  - subst s1. destruct Hreset as [-> | ->]; by run_M.
  - clearbody s1. clear Hthis.
    intros o [Ho | [val ->]]; [|by run_M].
    rewrite !elem_of_cons in Ho.
    destruct Ho as [->|[->|[->|[->|[->|Hnil]]]]]; try by run_M.
    by apply not_elem_of_nil in Hnil.
Qed.

End Facts.

(** * Concrete runs *)

Lemma Inv_init {T U} : Inv (@init T U).
Proof. intros l o H. cbn in H. by rewrite lookup_empty in H. Defined.

(** A container is default-constructed, assigned 10 through
    [operator=(U&&)], reset by [= {}] and reset again by [= nopt]. *)
Example optional_test_o1 :
  map (λ p, (heap p.1 !! 1%positive, calls_between init p.1, p.2))
      (exec int_ops test_o1 init) =
  [(Some (mkOpt Raw false), [], Ret (RObj 1%positive));
   (Some (mkOpt (Live 10%Z) true), [ConvCtor 1%positive 10%Z], Ret RUnit);
   (Some (mkOpt Raw false),
    [ConvCtor 1%positive 10%Z; Dtor 1%positive 10%Z], Ret RUnit);
   (Some (mkOpt Raw false),
    [ConvCtor 1%positive 10%Z; Dtor 1%positive 10%Z], Ret RUnit)].
Proof. by vm_compute. Qed.

(** The four presence cases of [operator=(const Opt&)], on the store
    [three 4 9] extended by a second absent container at 4. *)
Example assign_copy_table :
  let s := mkState (<[4%positive := mkOpt Raw false]> (heap (three 4 9))) [] in
  map (λ o, let r := run_op int_ops o s in
            (heap r.1 !! 1%positive, heap r.1 !! 3%positive, trace r.1))
      [OpAssignCopy 1%positive 2%positive; OpAssignCopy 3%positive 2%positive;
       OpAssignCopy 3%positive 1%positive; OpAssignCopy 1%positive 4%positive]
  =
  [(Some (mkOpt (Live 4%Z) true), Some (mkOpt (Live 9%Z) true),
    [CopyCtor 1%positive 4%Z]);
   (Some (mkOpt Raw false), Some (mkOpt (Live 4%Z) true),
    [CopyAssign 3%positive 9%Z 4%Z]);
   (Some (mkOpt Raw false), Some (mkOpt Raw false), [Dtor 3%positive 9%Z]);
   (Some (mkOpt Raw false), Some (mkOpt (Live 9%Z) true), [])].
Proof. by vm_compute. Qed.

(** C1, the claim as written fails: a container holding 7, whose
    destructor throws, is reset; the exception leaves the flag set over
    storage that holds no [T] any more. *)
Lemma throwing_dtor_breaks_I1 :
  Inv (@init Z Z) ∧
  ¬ Forall (λ p, Inv p.1)
      (exec dtor_throws [OpOfLvalue 7%Z; OpAssignNullOpt 1%positive] init).
Proof.
  split; [apply Inv_init|]. intros H.
  assert (exec dtor_throws [OpOfLvalue 7%Z; OpAssignNullOpt 1%positive] init
            !! 1%nat
          = Some (mkState {[1%positive := mkOpt Raw true]}
                          [CopyCtor 1%positive 7%Z; Dtor 1%positive 7%Z],
                  Throw 7%Z)) as Hrun by (by vm_compute).
  pose proof (proj1 (Forall_lookup _ _) H _ _ Hrun 1%positive
                (mkOpt Raw true) eq_refl) as Hbad.
  discriminate Hbad.
Qed.

(** C4, the claim as written fails: a present container holding 7, whose
    destructor throws, is reset twice.  The first reset does not clear the
    flag; the second one destroys storage that holds no [T] any more. *)
Lemma throwing_dtor_reset_keeps_flag :
  let s1 := mkState (<[1%positive := mkOpt Raw true]> (heap (one 7)))
                    [Dtor (U:=Z) 1%positive 7%Z] in
  exec dtor_throws [OpAssignNullOpt 1%positive; OpAssignNullOpt 1%positive]
       (one 7)
    = [(s1, Throw 7%Z); (s1, Abort Undefined)] ∧
  ¬ ∀ (this : loc) (s : state Z Z) (v : Z) (r : @op Z Z),
      heap s !! this = Some (mkOpt (Live v) true) →
      is_reset this r →
      heap (run_op dtor_throws r s).1 !! this = Some (mkOpt Raw false).
Proof.
  intros s1. split; [by vm_compute|]. intros H.
  specialize (H 1%positive (one 7) 7%Z (OpAssignNullOpt 1%positive)
                eq_refl (or_introl eq_refl)).
  vm_compute in H. discriminate H.
Qed.

(** C3, the claim as written fails twice.  A container move-assigned to
    itself is source and destination at once and ends absent, not present
    with its value.  And when the destructor throws on what the move left
    in the source, the move assignment leaves the source with its flag set
    and the move constructor terminates the program. *)
Lemma move_does_not_always_transfer :
  (¬ ∀ (this other : loc) (s : state Z Z) (v : Z),
       heap s !! other = Some (mkOpt (Live v) true) →
       is_Some (heap s !! this) →
       heap (assign_move int_ops this other s).1 !! this
       = Some (mkOpt (Live v) true)) ∧
  (¬ ∀ (this other : loc) (s : state Z Z) (v : Z),
       this ≠ other →
       heap s !! other = Some (mkOpt (Live v) true) →
       is_Some (heap s !! this) →
       heap (assign_move left_dtor_throws this other s).1 !! other
       = Some (mkOpt Raw false)) ∧
  (Opt_move left_dtor_throws 2%positive (three 4 9)).2 = Abort Terminated.
Proof.
  split; [|split].
  - intros H.
    specialize (H 1%positive 1%positive (one 5) 5%Z eq_refl
                  (ex_intro _ _ eq_refl)).
    vm_compute in H. discriminate H.
  - intros H.
    assert (1%positive ≠ 2%positive) as Hne by discriminate.
    specialize (H 1%positive 2%positive (three 4 9) 4%Z Hne eq_refl
                  (ex_intro _ _ eq_refl)).
    vm_compute in H. discriminate H.
  - by vm_compute.
Qed.

Lemma exec_Inv_witness :
  Inv (@init Z Z) ∧
  Forall (λ p, Forall (dtor_ok int_ops) (calls_between init p.1) → Inv p.1)
         (exec int_ops test_o1 init).
Proof. split; [apply Inv_init|]. apply (exec_Inv int_ops), Inv_init. Defined.

Lemma assign_value_cases_witness :
  heap (three 4 9) !! 1%positive = Some (mkOpt Raw false) ∧
  I1 (mkOpt (T:=Z) Raw false) ∧
  heap (three 4 9) !! 2%positive = Some (mkOpt (Live 4%Z) true) ∧
  I1 (mkOpt (Live 4%Z) true) ∧
  assign_value int_ops 1%positive 10%Z (three 4 9) =
    (mkState (<[1%positive := mkOpt (Live 10%Z) true]> (heap (three 4 9)))
             [ConvCtor 1%positive 10%Z], Ret ()) ∧
  assign_value int_ops 2%positive 10%Z (three 4 9) =
    (mkState (<[2%positive := mkOpt (Live 10%Z) true]> (heap (three 4 9)))
             [ConvAssign 2%positive 4%Z 10%Z], Ret ()).
Proof.
  split; [reflexivity|]. split; [reflexivity|].
  split; [reflexivity|]. split; [reflexivity|]. split.
  - exact (assign_value_cases int_ops 1%positive (three 4 9)
             (mkOpt Raw false) 10%Z eq_refl eq_refl).
  - exact (assign_value_cases int_ops 2%positive (three 4 9)
             (mkOpt (Live 4%Z) true) 10%Z eq_refl eq_refl).
Defined.

Lemma move_transfers_witness :
  heap (three 4 9) !! 2%positive = Some (mkOpt (Live 4%Z) true) ∧
  T_move int_ops 4%Z = (0%Z, Done 4%Z) ∧
  T_dtor int_ops 0%Z = None ∧
  Opt_move int_ops 2%positive (three 4 9) =
    (mkState (<[2%positive := mkOpt Raw false]>
                (<[4%positive := mkOpt (Live 4%Z) true]> (heap (three 4 9))))
             [MoveCtor 4%positive 4%Z; Dtor 2%positive 0%Z],
     Ret 4%positive) ∧
  assign_move int_ops 1%positive 2%positive (three 4 9) =
    (mkState (<[2%positive := mkOpt Raw false]>
                (<[1%positive := mkOpt (Live 4%Z) true]> (heap (three 4 9))))
             [MoveCtor 1%positive 4%Z; Dtor 2%positive 0%Z], Ret ()) ∧
  assign_move int_ops 3%positive 2%positive (three 4 9) =
    (mkState (<[2%positive := mkOpt Raw false]>
                (<[3%positive := mkOpt (Live 4%Z) true]> (heap (three 4 9))))
             [MoveAssign 3%positive 9%Z 4%Z; Dtor 2%positive 0%Z], Ret ()).
Proof.
  split; [reflexivity|]. split; [reflexivity|]. split; [reflexivity|].
  destruct (move_transfers int_ops 2%positive (three 4 9) 4%Z eq_refl)
    as (Hmove & Hassign).
  destruct (Hmove 0%Z eq_refl eq_refl) as ([_ Hctor] & Hnew).
  split; [exact Hctor|]. split.
  - apply Hnew; [discriminate | reflexivity].
  - apply (Hassign 3%positive 9%Z 0%Z);
      [discriminate | reflexivity | reflexivity | reflexivity].
Defined.

Lemma reset_destroys_once_witness :
  heap (one 10) !! 1%positive = Some (mkOpt (Live 10%Z) true) ∧
  I1 (mkOpt (Live 10%Z) true) ∧
  T_dtor int_ops 10%Z = None ∧
  is_reset 1%positive (OpAssignBraces (T:=Z) (U:=Z) 1%positive) ∧
  Forall (is_reset 1%positive)
         [OpAssignNullOpt (T:=Z) (U:=Z) 1%positive; OpAssignBraces 1%positive] ∧
  let s1 := mkState (<[1%positive := mkOpt Raw false]> (heap (one 10)))
                    [Dtor (U:=Z) 1%positive 10%Z] in
  exec int_ops
    [OpAssignBraces 1%positive; OpAssignNullOpt 1%positive;
     OpAssignBraces 1%positive] (one 10) =
  [(s1, Ret RUnit); (s1, Ret RUnit); (s1, Ret RUnit)].
Proof.
  assert (Forall (is_reset 1%positive)
            [OpAssignNullOpt (T:=Z) (U:=Z) 1%positive;
             OpAssignBraces 1%positive]) as Hos.
  { apply List.Forall_cons; [by left|]. apply List.Forall_cons; [by right|].
    apply List.Forall_nil. }
  split; [reflexivity|]. split; [reflexivity|]. split; [reflexivity|].
  split; [by right|]. split; [exact Hos|].
  exact (proj1 (reset_destroys_once int_ops 1%positive (one 10)
                  (mkOpt (Live 10%Z) true) (OpAssignBraces 1%positive) _
                  eq_refl eq_refl (λ _ _, eq_refl) (or_intror eq_refl) Hos)
           10%Z eq_refl).
Defined.

Lemma failed_build_keeps_I1_witness :
  let s' := mkState ∅ [CopyCtor (U:=Z) 1%positive 7%Z] in
  Inv (@init Z Z) ∧
  run_op copy_throws (OpOfLvalue 7%Z) init = (s', Throw (A:=@retval Z) 7%Z) ∧
  calls_between init s' = [] ++ [CopyCtor 1%positive 7%Z] ∧
  is_dtor (CopyCtor (U:=Z) 1%positive 7%Z) = false ∧
  call_exn copy_throws (CopyCtor 1%positive 7%Z) = Some 7%Z ∧
  Inv s' ∧ dom (heap s') = dom (heap (@init Z Z)) ∧
  (Throw (A:=@retval Z) 7%Z = Throw 7%Z ∨
   Throw (A:=@retval Z) 7%Z = Abort Terminated).
Proof.
  intros s'. split; [apply Inv_init|]. split; [by vm_compute|].
  split; [reflexivity|]. split; [reflexivity|]. split; [reflexivity|].
  apply (failed_build_keeps_I1 copy_throws (OpOfLvalue 7%Z) init s'
           (Throw 7%Z) [] (CopyCtor 1%positive 7%Z) 7%Z);
    [apply Inv_init | by vm_compute | reflexivity | reflexivity | reflexivity].
Defined.

(** C6, the claim as written fails: the move constructor of a handle throws
    on 7 while a container holding 7 is move-constructed from; the
    exception does not reach the caller, the program is terminated. *)
Lemma noexcept_move_does_not_propagate :
  ¬ ∀ (o : @op Z Z) (s s' : state Z Z) (r : outcome Z retval)
      (c : tcall Z Z) (e : Z),
      run_op move_throws o s = (s', r) →
      c ∈ calls_between s s' →
      call_exn move_throws c = Some e →
      r = Throw e.
Proof.
  intros H.
  specialize (H (OpMove 1%positive) (one 7)
                (mkState {[1%positive := mkOpt (Live 7%Z) true]}
                         [MoveCtor 2%positive 7%Z])
                (Abort Terminated) (MoveCtor 2%positive 7%Z) 7%Z).
  discriminate H; [by vm_compute | | reflexivity].
  apply list_elem_of_singleton. reflexivity.
Qed.

Lemma exceptions_pass_through_witness :
  let s' := mkState ∅ [CopyCtor (U:=Z) 1%positive 7%Z] in
  run_op copy_throws (OpOfLvalue 7%Z) init = (s', Throw (A:=@retval Z) 7%Z) ∧
  (∀ e, Throw (A:=@retval Z) 7%Z = Throw e →
     is_noexcept (OpOfLvalue (U:=Z) 7%Z) = false ∧
     ∃ pre c, calls_between init s' = pre ++ [c] ∧
              call_exn copy_throws c = Some e) ∧
  (∀ pre c post e,
     calls_between init s' = pre ++ c :: post →
     call_exn copy_throws c = Some e →
     post = [] ∧
     Throw (A:=@retval Z) 7%Z =
       if is_noexcept (OpOfLvalue (U:=Z) 7%Z) then Abort Terminated
       else Throw e).
Proof.
  intros s'. split; [by vm_compute|].
  apply (exceptions_pass_through copy_throws (OpOfLvalue 7%Z) init s'
           (Throw 7%Z)).
  by vm_compute.
Defined.

Lemma copy_is_independent_witness :
  heap (one 5) !! 1%positive = Some (mkOpt (Live 5%Z) true) ∧
  T_copy int_ops 5%Z = Done 5%Z ∧
  let s1 := mkState (<[2%positive := mkOpt (Live 5%Z) true]> (heap (one 5)))
                    [CopyCtor (U:=Z) 2%positive 5%Z] in
  Opt_copy int_ops 1%positive (one 5) = (s1, Ret 2%positive) ∧
  Forall (λ p, heap p.1 !! 2%positive = Some (mkOpt (Live 5%Z) true))
         (exec int_ops
            [OpAssignValue 1%positive 8%Z; OpAssignNullOpt 1%positive;
             OpDtor 1%positive] s1) ∧
  Forall (λ p, heap p.1 !! 1%positive = Some (mkOpt (Live 5%Z) true))
         (exec int_ops
            [OpWrite 2%positive (Z.add 1); OpAssignBraces 2%positive;
             OpDtor 2%positive] s1).
Proof.
  split; [reflexivity|]. split; [reflexivity|]. intros s1.
  destruct (copy_is_independent int_ops 1%positive (one 5) 5%Z
              eq_refl eq_refl) as (Hcopy & _ & _ & _ & Hkeep).
  split; [exact Hcopy|]. split.
  - apply (Hkeep 2%positive); [by left|].
    repeat apply List.Forall_cons; try apply List.Forall_nil;
      intros Hin%list_elem_of_singleton; discriminate Hin.
  - apply (Hkeep 1%positive); [by right|].
    repeat apply List.Forall_cons; try apply List.Forall_nil;
      intros Hin%list_elem_of_singleton; discriminate Hin.
Defined.

Lemma star_reads_value_witness :
  heap (one 5) !! 1%positive = Some (mkOpt (Live 5%Z) true) ∧
  star_mut (E:=Z) 1%positive (one 5) = (one 5, Ret 5%Z) ∧
  star_const (E:=Z) 1%positive (one 5) = (one 5, Ret 5%Z) ∧
  has_value (E:=Z) 1%positive (one 5) = (one 5, Ret true).
Proof.
  split; [reflexivity|].
  exact (star_reads_value 1%positive (one 5) 5%Z eq_refl).
Defined.

Lemma move_from_absent_witness :
  heap (three 4 9) !! 1%positive = Some (mkOpt Raw false) ∧
  Opt_move int_ops 1%positive (three 4 9) =
    (mkState (<[4%positive := mkOpt Raw false]> (heap (three 4 9))) [],
     Ret 4%positive) ∧
  let s' := mkState (<[2%positive := mkOpt Raw false]> (heap (three 4 9)))
                    [Dtor (U:=Z) 2%positive 4%Z] in
  assign_move int_ops 2%positive 1%positive (three 4 9) = (s', Ret ()) ∧
  Destroy int_ops 2%positive (three 4 9) = (s', Ret ()) ∧
  heap s' !! 1%positive = Some (mkOpt Raw false) ∧
  ∀ v, Dtor 1%positive v ∉ calls_between (three 4 9) s'.
Proof.
  split; [reflexivity|].
  destruct (move_from_absent int_ops 1%positive (three 4 9) eq_refl)
    as ([Hctor _] & Hassign).
  split; [exact Hctor|]. intros s'.
  assert (assign_move int_ops 2%positive 1%positive (three 4 9) = (s', Ret ()))
    as Hrun by (by vm_compute).
  split; [exact Hrun|]. exact (Hassign 2%positive s' (Ret ()) Hrun).
Defined.

(** * Concrete runs of the further properties *)

Lemma Inv_three (v w : Z) : Inv (three v w).
Proof.
  intros l o H. unfold three in H. cbn in H.
  rewrite !lookup_insert in H. repeat case_decide; simplify_eq; try done.
  rewrite lookup_singleton in H. case_decide; by simplify_eq.
Defined.

Lemma Tidy_init {T U} : Tidy (@init T U).
Proof. intros l o H. cbn in H. by rewrite lookup_empty in H. Defined.

Lemma assign_copy_cases_witness :
  heap (three 4 9) !! 1%positive = Some (mkOpt Raw false) ∧
  I1 (mkOpt (T:=Z) Raw false) ∧
  heap (three 4 9) !! 2%positive = Some (mkOpt (Live 4%Z) true) ∧
  I1 (mkOpt (Live 4%Z) true) ∧
  assign_copy int_ops 1%positive 2%positive (three 4 9) =
    (mkState (<[1%positive := mkOpt (Live 4%Z) true]> (heap (three 4 9)))
             [CopyCtor 1%positive 4%Z], Ret ()) ∧
  heap (assign_copy int_ops 1%positive 2%positive (three 4 9)).1 !! 2%positive
    = Some (mkOpt (Live 4%Z) true).
Proof.
  split; [reflexivity|]. split; [reflexivity|].
  split; [reflexivity|]. split; [reflexivity|].
  destruct (assign_copy_cases int_ops 1%positive 2%positive (three 4 9)
              (mkOpt Raw false) (mkOpt (Live 4%Z) true)
              eq_refl eq_refl eq_refl eq_refl) as [Heq Hsrc].
  split; [exact Heq|]. apply Hsrc. discriminate.
Defined.

Lemma self_copy_assign_witness :
  heap (one 5) !! 1%positive = Some (mkOpt (Live 5%Z) true) ∧
  assign_copy int_ops 1%positive 1%positive (one 5) =
    (mkState (<[1%positive := mkOpt (Live 5%Z) true]> (heap (one 5)))
             [CopyAssign 1%positive 5%Z 5%Z], Ret ()).
Proof.
  split; [reflexivity|].
  exact (self_copy_assign int_ops 1%positive (one 5) 5%Z eq_refl).
Defined.

Lemma self_move_assign_witness :
  heap (one 5) !! 1%positive = Some (mkOpt (Live 5%Z) true) ∧
  I1 (mkOpt (Live 5%Z) true) ∧
  assign_move int_ops 1%positive 1%positive (one 5) =
    (mkState (<[1%positive := mkOpt Raw false]> (heap (one 5)))
             [MoveAssign 1%positive 5%Z 5%Z; Dtor 1%positive 0%Z], Ret ()) ∧
  assign_move left_dtor_throws 1%positive 1%positive (one 5) =
    (mkState (<[1%positive := mkOpt Raw true]> (heap (one 5)))
             [MoveAssign 1%positive 5%Z 5%Z; Dtor 1%positive 0%Z],
     Throw 0%Z).
Proof.
  split; [reflexivity|]. split; [reflexivity|]. split.
  - exact (self_move_assign int_ops 1%positive (one 5)
             (mkOpt (Live 5%Z) true) eq_refl eq_refl).
  - exact (self_move_assign left_dtor_throws 1%positive (one 5)
             (mkOpt (Live 5%Z) true) eq_refl eq_refl).
Defined.

Lemma failed_move_assign_keeps_source_witness :
  2%positive ≠ 1%positive ∧
  heap (three 7 9) !! 2%positive = Some (mkOpt (Live 7%Z) true) ∧
  heap (three 7 9) !! 1%positive = Some (mkOpt Raw false) ∧
  (T_move moves_throw 7%Z).2 = Raised 7%Z ∧
  heap (three 7 9) !! 3%positive = Some (mkOpt (Live 9%Z) true) ∧
  (T_move_assign moves_throw 9%Z 7%Z).2 = Some 7%Z ∧
  assign_move moves_throw 1%positive 2%positive (three 7 9) =
    (mkState (<[2%positive := mkOpt (Live 7%Z) true]> (heap (three 7 9)))
             [MoveCtor 1%positive 7%Z], Throw 7%Z) ∧
  assign_move moves_throw 3%positive 2%positive (three 7 9) =
    (mkState (<[2%positive := mkOpt (Live 7%Z) true]>
                (<[3%positive := mkOpt (Live 9%Z) true]> (heap (three 7 9))))
             [MoveAssign 3%positive 9%Z 7%Z], Throw 7%Z).
Proof.
  split; [discriminate|]. split; [reflexivity|]. split; [reflexivity|].
  split; [reflexivity|]. split; [reflexivity|]. split; [reflexivity|]. split.
  - refine (proj1 (failed_move_assign_keeps_source moves_throw 1%positive
                     2%positive (three 7 9) 7%Z 7%Z _ eq_refl)
              eq_refl eq_refl).
    discriminate.
  - refine (proj2 (failed_move_assign_keeps_source moves_throw 3%positive
                     2%positive (three 7 9) 7%Z 7%Z _ eq_refl)
              9%Z eq_refl eq_refl).
    discriminate.
Defined.

Lemma presence_guards_access_witness :
  heap (three 4 9) !! 1%positive = Some (mkOpt Raw false) ∧
  I1 (mkOpt (T:=Z) Raw false) ∧
  has_value (E:=Z) 1%positive (three 4 9) = (three 4 9, Ret false) ∧
  arrow (E:=Z) 1%positive (three 4 9) = (three 4 9, Ret Raw) ∧
  star_mut (E:=Z) 1%positive (three 4 9) = (three 4 9, Abort AssertFailed) ∧
  star_const (E:=Z) 1%positive (three 4 9)
    = (three 4 9, Abort AssertFailed) ∧
  star_move (E:=Z) 1%positive (three 4 9) = (three 4 9, Abort AssertFailed) ∧
  star_const_move (E:=Z) 1%positive (three 4 9)
    = (three 4 9, Abort AssertFailed).
Proof.
  split; [reflexivity|]. split; [reflexivity|].
  exact (presence_guards_access (E:=Z) 1%positive (three 4 9)
           (mkOpt Raw false) eq_refl eq_refl).
Defined.

Lemma store_then_read_witness :
  T_copy int_ops 6%Z = Done 6%Z ∧
  (T_move int_ops 6%Z).2 = Done 6%Z ∧
  heap (three 4 9) !! 2%positive = Some (mkOpt (Live 4%Z) true) ∧
  I1 (mkOpt (Live 4%Z) true) ∧
  T_conv_assign int_ops 4%Z 6%Z = (6%Z, None) ∧
  (let r := Opt_of_lvalue int_ops 6%Z (three 4 9) in
   r.2 = Ret 4%positive ∧ star_const (E:=Z) 4%positive r.1 = (r.1, Ret 6%Z)) ∧
  (let r := Opt_of_rvalue int_ops 6%Z (three 4 9) in
   r.2 = Ret 4%positive ∧ star_const (E:=Z) 4%positive r.1 = (r.1, Ret 6%Z)) ∧
  (let r := assign_value int_ops 2%positive 6%Z (three 4 9) in
   r.2 = Ret () ∧ star_const (E:=Z) 2%positive r.1 = (r.1, Ret 6%Z)).
Proof.
  split; [reflexivity|]. split; [reflexivity|]. split; [reflexivity|].
  split; [reflexivity|]. split; [reflexivity|].
  destruct (store_then_read int_ops (three 4 9) 6%Z) as (Hl & Hr & Ha).
  split; [exact (Hl 6%Z eq_refl)|]. split; [exact (Hr 6%Z eq_refl)|].
  exact (Ha 2%positive (mkOpt (Live 4%Z) true) 6%Z eq_refl eq_refl eq_refl).
Defined.

Lemma copy_construct_cases_witness :
  heap (three 4 9) !! 2%positive = Some (mkOpt (Live 4%Z) true) ∧
  I1 (mkOpt (Live 4%Z) true) ∧
  Opt_copy int_ops 2%positive (three 4 9) =
    (mkState (<[4%positive := mkOpt (Live 4%Z) true]> (heap (three 4 9)))
             [CopyCtor 4%positive 4%Z], Ret 4%positive) ∧
  heap (Opt_copy int_ops 2%positive (three 4 9)).1 !! 2%positive
    = Some (mkOpt (Live 4%Z) true).
Proof.
  split; [reflexivity|]. split; [reflexivity|].
  exact (copy_construct_cases int_ops 2%positive (three 4 9)
           (mkOpt (Live 4%Z) true) eq_refl eq_refl).
Defined.

Lemma destructor_cases_witness :
  heap (one 7) !! 1%positive = Some (mkOpt (Live 7%Z) true) ∧
  I1 (mkOpt (Live 7%Z) true) ∧
  Opt_dtor int_ops 1%positive (one 7) =
    (mkState (delete 1%positive (heap (one 7))) [Dtor 1%positive 7%Z],
     Ret ()) ∧
  heap (Opt_dtor int_ops 1%positive (one 7)).1 !! 1%positive = None ∧
  (∀ l, l ≠ 1%positive →
        heap (Opt_dtor int_ops 1%positive (one 7)).1 !! l
        = heap (one 7) !! l) ∧
  Opt_dtor dtor_throws 1%positive (one 7) =
    (mkState (<[1%positive := mkOpt Raw true]> (heap (one 7)))
             [Dtor 1%positive 7%Z], Abort Terminated).
Proof.
  split; [reflexivity|]. split; [reflexivity|].
  destruct (destructor_cases int_ops 1%positive (one 7)
              (mkOpt (Live 7%Z) true) eq_refl eq_refl) as [Heq Hgone].
  split; [exact Heq|]. destruct (Hgone eq_refl) as [Hthis Hrest].
  split; [exact Hthis|]. split; [exact Hrest|].
  exact (proj1 (destructor_cases dtor_throws 1%positive (one 7)
                  (mkOpt (Live 7%Z) true) eq_refl eq_refl)).
Defined.

Lemma never_uses_dead_storage_witness :
  Inv (three 4 9) ∧
  Forall (λ l, is_Some (heap (three 4 9) !! l))
         (operands (OpStarMut (T:=Z) (U:=Z) 1%positive)) ∧
  run_op int_ops (OpStarMut 1%positive) (three 4 9)
    = (three 4 9, Abort AssertFailed) ∧
  Abort (E:=Z) (A:=@retval Z) AssertFailed ≠ Abort Undefined ∧
  (Abort (E:=Z) (A:=@retval Z) AssertFailed = Abort AssertFailed →
   ∃ this, accessed (OpStarMut (T:=Z) (U:=Z) 1%positive) = Some this ∧
           heap (three 4 9) !! this = Some (mkOpt Raw false) ∧
           three 4 9 = three 4 9) ∧
  (Abort (E:=Z) (A:=@retval Z) AssertFailed = Abort Terminated →
   is_noexcept (OpStarMut (T:=Z) (U:=Z) 1%positive) = true).
Proof.
  assert (Forall (λ l, is_Some (heap (three 4 9) !! l))
            (operands (OpStarMut (T:=Z) (U:=Z) 1%positive))) as Hex.
  { apply List.Forall_cons; [by eexists | apply List.Forall_nil]. }
  split; [apply Inv_three|]. split; [exact Hex|]. split; [reflexivity|].
  exact (never_uses_dead_storage int_ops (OpStarMut 1%positive) (three 4 9)
           (three 4 9) (Abort AssertFailed) (Inv_three 4 9) Hex eq_refl).
Defined.


Lemma lives_balance_witness :
  Tidy (@init Z Z) ∧
  Forall (λ p, is_abort p.2 = false →
               live_cells (heap p.1) + tally is_dtor (calls_between init p.1)
               = live_cells (heap (@init Z Z))
                 + tally (built int_ops) (calls_between init p.1))
         (exec int_ops test_o1 init).
Proof. split; [apply Tidy_init|]. apply (lives_balance int_ops), Tidy_init. Defined.

Lemma assign_then_reset_witness :
  heap (three 4 9) !! 1%positive = Some (mkOpt Raw false) ∧
  T_conv int_ops 10%Z = Done 10%Z ∧
  T_dtor int_ops 10%Z = None ∧
  is_reset 1%positive (OpAssignBraces (T:=Z) (U:=Z) 1%positive) ∧
  exec int_ops [OpAssignValue 1%positive 10%Z; OpAssignBraces 1%positive]
       (three 4 9) =
    [(mkState (<[1%positive := mkOpt (Live 10%Z) true]> (heap (three 4 9)))
              [ConvCtor 1%positive 10%Z], Ret RUnit);
     (mkState (heap (three 4 9))
              [ConvCtor 1%positive 10%Z; Dtor 1%positive 10%Z], Ret RUnit)].
Proof.
  split; [reflexivity|]. split; [reflexivity|]. split; [reflexivity|].
  split; [by right|].
  exact (assign_then_reset int_ops 1%positive (three 4 9) 10%Z 10%Z
           (OpAssignBraces 1%positive) eq_refl eq_refl eq_refl
           (or_intror eq_refl)).
Defined.

Lemma throwing_dtor_poisons_witness :
  heap (one 7) !! 1%positive = Some (mkOpt (Live 7%Z) true) ∧
  T_dtor dtor_throws 7%Z = Some 7%Z ∧
  is_reset 1%positive (OpAssignNullOpt (T:=Z) (U:=Z) 1%positive) ∧
  let s1 := mkState (<[1%positive := mkOpt Raw true]> (heap (one 7)))
                    [Dtor (U:=Z) 1%positive 7%Z] in
  run_op dtor_throws (OpAssignNullOpt 1%positive) (one 7) = (s1, Throw 7%Z) ∧
  run_op dtor_throws (OpDtor 1%positive) s1 = (s1, Abort Undefined) ∧
  run_op dtor_throws (OpAssignValue 1%positive 3%Z) s1 = (s1, Abort Undefined).
Proof.
  split; [reflexivity|]. split; [reflexivity|]. split; [by left|]. intros s1.
  destruct (throwing_dtor_poisons dtor_throws 1%positive (one 7) 7%Z 7%Z
              (OpAssignNullOpt 1%positive) eq_refl eq_refl
              (or_introl eq_refl)) as [Hrun Hlater].
  split; [exact Hrun|]. split.
  - apply Hlater. left. rewrite !elem_of_cons. tauto.
  - apply Hlater. right. by exists 3%Z.
Defined.
